(** * Thai Document AI OCR pipeline (thaiOcrSimple.js): a shallow embedding

    The development follows the source file top-down:
    - [Text]: JavaScript strings as lists of UTF-16 code units, the three
      global regular-expression replacements and [trim] of
      [_normalizeExtractedText], [parseInt], and the page assembly loop;
    - [Gate]: [createConcurrencyLimiter] as a state record with its two
      atomic code segments, and the event-loop machine of its clients;
    - [Pipeline]: the enhancement and recognition tasks of
      [_runOcrProcessingPipeline] over two gates and the per-page promises;
    - [Coordinator]: the try/catch structure of the pipeline over a file
      system and a log of the external calls. *)

From Stdlib Require Import ZArith NArith Lia DecimalString.
From stdpp Require Import base tactics option list strings gmap.

Open Scope N_scope.

(* ===================================================================== *)
(** ** Strings                                                            *)
(* ===================================================================== *)

Module Text.

(** A JavaScript string is a sequence of 16-bit code units. *)
Abbreviation jsstring := (list N).

Definition lit (s : string) : jsstring :=
  (fun a => Ascii.N_of_ascii a) <$> String.list_ascii_of_string s.

Definition TAB : N := 9.
Definition LF : N := 10.
Definition CR : N := 13.
Definition SP : N := 32.

Definition is_lf (c : N) : bool := c =? LF.
Definition is_cr (c : N) : bool := c =? CR.

(** The class [[ \t]] of the second regular expression. *)
Definition is_blank (c : N) : bool := (c =? SP) || (c =? TAB).

(** WhiteSpace and LineTerminator code units of ECMAScript: what
    [String.prototype.trim] removes and what [parseInt] skips. *)
Definition is_ws (c : N) : bool :=
  ((9 <=? c) && (c <=? 13)) || (c =? 32) || (c =? 160) || (c =? 5760)
  || ((8192 <=? c) && (c <=? 8202)) || (c =? 8232) || (c =? 8233)
  || (c =? 8239) || (c =? 8287) || (c =? 12288) || (c =? 65279).

(** *** [String.prototype.replace] with a global regular expression

    A [matcher] answers, for the text that starts at the current position,
    the length of the match anchored there (the regular expressions of this
    file have no alternative but the greedy one).  [replace_from] is the
    left-to-right scan of [replace]: at a match the replacement is emitted
    and the scan resumes after the match ([skip] counts the code units of the
    match still to be passed over); elsewhere the code unit is copied. *)
Definition matcher := jsstring -> option nat.

Fixpoint replace_from (m : matcher) (rep : jsstring) (skip : nat) (s : jsstring)
  : jsstring :=
  match s with
  | [] => match skip, m [] with
          | O, Some _ => rep
          | _, _ => []
          end
  | c :: r =>
      match skip with
      | S k => replace_from m rep k r
      | O => match m s with
             | Some (S k) => rep ++ replace_from m rep k r
             | Some O => rep ++ c :: replace_from m rep O r
             | None => c :: replace_from m rep O r
             end
      end
  end.

Definition replace_global (m : matcher) (rep s : jsstring) : jsstring :=
  replace_from m rep O s.

(** Length of the longest prefix whose code units satisfy [p] (a greedy
    [[...]+] or [x{n,}]). *)
Fixpoint run_length (p : N -> bool) (s : jsstring) : nat :=
  match s with
  | c :: r => if p c then S (run_length p r) else O
  | [] => O
  end.

(** [/\r\n/] *)
Definition re_crlf : matcher := fun s =>
  match s with
  | c :: d :: _ => if is_cr c && is_lf d then Some 2%nat else None
  | _ => None
  end.

(** [/[ \t]+\n/]: the run of blanks is maximal, a shorter one is followed by
    a blank and not by a line feed. *)
Definition re_blanks_lf : matcher := fun s =>
  let k := run_length is_blank s in
  match k, drop k s with
  | S _, d :: _ => if is_lf d then Some (S k) else None
  | _, _ => None
  end.

(** [/\n{3,}/] *)
Definition re_lf3 : matcher := fun s =>
  let k := run_length is_lf s in
  if (3 <=? k)%nat then Some k else None.

(** *** [String.prototype.trim] *)
Fixpoint trim_start (s : jsstring) : jsstring :=
  match s with
  | c :: r => if is_ws c then trim_start r else s
  | [] => []
  end.

Definition trim_end (s : jsstring) : jsstring :=
  reverse (trim_start (reverse s)).

Definition trim (s : jsstring) : jsstring := trim_end (trim_start s).

(** *** [_normalizeExtractedText]

    [t || ""]: [None] stands for [undefined] or [null]; the empty string is
    falsy as well and is replaced by itself. *)
Definition or_empty (t : option jsstring) : jsstring := default [] t.

Definition _normalizeExtractedText (t : option jsstring) : jsstring :=
  trim
    (replace_global re_lf3 [LF; LF]
       (replace_global re_blanks_lf [LF]
          (replace_global re_crlf [LF] (or_empty t)))).

Definition normalize (s : jsstring) : jsstring := _normalizeExtractedText (Some s).

(** *** What each replacement does, by recursion on the text

    These follow the reading of the three expressions; the theorems below
    show that the scan of [replace_global] computes them. *)

Definition starts_with (p : N -> bool) (s : jsstring) : bool :=
  match s with
  | c :: _ => p c
  | [] => false
  end.

(** Every pair CR LF met from the left becomes LF. *)
Fixpoint crlf_to_lf (s : jsstring) : jsstring :=
  match s with
  | [] => []
  | c :: r =>
      match r with
      | d :: r' => if is_cr c && is_lf d then LF :: crlf_to_lf r'
                   else c :: crlf_to_lf r
      | [] => [c]
      end
  end.

(** A blank is dropped when what remains of the line after it is blank up to
    the line feed. *)
Fixpoint strip_blanks (s : jsstring) : jsstring :=
  match s with
  | [] => []
  | c :: r =>
      let r' := strip_blanks r in
      if is_blank c && starts_with is_lf r' then r' else c :: r'
  end.

(** A line feed is dropped when two line feeds follow it. *)
Fixpoint squeeze_lf (s : jsstring) : jsstring :=
  match s with
  | [] => []
  | c :: r =>
      let r' := squeeze_lf r in
      if is_lf c && starts_with is_lf r' && starts_with is_lf (tail r')
      then r' else c :: r'
  end.

(** *** Properties of a text *)

(** [occurs w s]: the window test [w] holds at some position of [s]. *)
Fixpoint occurs (w : jsstring -> bool) (s : jsstring) : bool :=
  match s with
  | [] => false
  | _ :: r => w s || occurs w r
  end.

Definition at_crlf (s : jsstring) : bool :=
  match s with
  | c :: d :: _ => is_cr c && is_lf d
  | _ => false
  end.

Definition at_stray_cr (s : jsstring) : bool :=
  match s with
  | c :: r => is_cr c && negb (starts_with is_lf r)
  | [] => false
  end.

Definition at_blank_lf (s : jsstring) : bool :=
  match s with
  | c :: d :: _ => is_blank c && is_lf d
  | _ => false
  end.

Definition at_lf3 (s : jsstring) : bool :=
  match s with
  | c :: d :: e :: _ => is_lf c && is_lf d && is_lf e
  | _ => false
  end.

(** A window test that looks at a prefix only. *)
Definition monotone (w : jsstring -> bool) : Prop :=
  forall a b, w a = true -> w (a ++ b) = true.

(** Some CR is directly followed by LF. *)
Definition has_crlf : jsstring -> bool := occurs at_crlf.

(** Some CR is not directly followed by LF. *)
Definition has_stray_cr : jsstring -> bool := occurs at_stray_cr.

(** Some space or tab is directly followed by LF. *)
Definition has_blank_lf : jsstring -> bool := occurs at_blank_lf.

(** Three line feeds in a row, that is two blank lines in a row. *)
Definition has_lf3 : jsstring -> bool := occurs at_lf3.

(** No white space at either end. *)
Definition trimmed (s : jsstring) : bool :=
  negb (starts_with is_ws s) && negb (starts_with is_ws (reverse s)).

(** *** The result of normalising, in the specification's words

    All line terminators in one convention (no CR LF pair is left), no space
    or tab directly before a line break, never three blank lines in a row
    (four line feeds), and no white space at either end. *)
Definition at_lf4 (s : jsstring) : bool :=
  match s with
  | c :: d :: e :: f :: _ => is_lf c && is_lf d && is_lf e && is_lf f
  | _ => false
  end.

Definition normalized_as_specified (o : jsstring) : Prop :=
  has_crlf o = false /\ has_blank_lf o = false
  /\ occurs at_lf4 o = false /\ trimmed o = true.

(** The text ["a\r\r\nb"]. *)
Definition a_cr_crlf_b : jsstring := lit "a" ++ [CR; CR; LF] ++ lit "b".

(** *** [parseInt(string)], without a radix argument

    Leading white space is skipped, then a sign, then [0x] or [0X] selects
    radix 16; the longest prefix of digits is the value, and there is no
    value ([NaN], here [None]) when that prefix is empty.  The double that
    JavaScript returns is kept as the integer it stands for. *)
Definition digit_value (radix c : N) : option N :=
  let v := if (48 <=? c) && (c <=? 57) then Some (c - 48)
           else if (97 <=? c) && (c <=? 122) then Some (c - 87)
           else if (65 <=? c) && (c <=? 90) then Some (c - 55)
           else None in
  match v with
  | Some d => if d <? radix then Some d else None
  | None => None
  end.

Fixpoint digits_prefix (radix : N) (acc : option N) (s : jsstring) : option N :=
  match s with
  | c :: r =>
      match digit_value radix c with
      | Some d => digits_prefix radix (Some (default 0 acc * radix + d)) r
      | None => acc
      end
  | [] => acc
  end.

Definition strip_sign (s : jsstring) : bool * jsstring :=
  match s with
  | c :: r => if c =? 45 then (true, r) else if c =? 43 then (false, r)
              else (false, s)
  | [] => (false, s)
  end.

Definition strip_radix_prefix (s : jsstring) : N * jsstring :=
  match s with
  | c :: d :: r => if (c =? 48) && ((d =? 120) || (d =? 88)) then (16, r)
                   else (10, s)
  | _ => (10, s)
  end.

Definition parseInt (s : jsstring) : option Z :=
  let '(neg, s2) := strip_sign (trim_start s) in
  let '(radix, s3) := strip_radix_prefix s2 in
  match digits_prefix radix None s3 with
  | Some n => Some (if neg then (- Z.of_N n)%Z else Z.of_N n)
  | None => None
  end.

(** [!n] for a number: [NaN] and zero are falsy. *)
Definition number_falsy (n : option Z) : bool :=
  match n with
  | None => true
  | Some z => (z =? 0)%Z
  end.

(** [n < 1]: a comparison with [NaN] is false. *)
Definition number_lt_1 (n : option Z) : bool :=
  match n with
  | None => false
  | Some z => (z <? 1)%Z
  end.

(** *** Page assembly

    [`${i + 1}`]: a page number in decimal. *)
Definition decimal (n : nat) : jsstring :=
  lit (NilEmpty.string_of_uint (Nat.to_uint n)).

(** [`${pageResults[i]}`] and [... + pageResults[i]]: a slot of
    [new Array(totalPages)] that was never assigned reads [undefined]. *)
Definition slot_text (r : option jsstring) : jsstring :=
  match r with
  | Some t => t
  | None => lit "undefined"
  end.

Definition page_marker (k : nat) : jsstring :=
  [LF; LF] ++ lit "===== PAGE " ++ decimal k ++ lit " =====" ++ [LF; LF].

(** The right-hand side of [text += ...] at index [i]. *)
Definition page_piece (includeMarkers : bool) (i : nat) (r : option jsstring)
  : jsstring :=
  if includeMarkers then page_marker (i + 1) ++ slot_text r
  else (if Nat.eqb i 0 then [] else [LF; LF]) ++ slot_text r.

(** [for (let i = 0; i < pageResults.length; i++) text += ...], entered at
    index [i] with the slots from [i] on still to visit. *)
Fixpoint assemble_loop (includeMarkers : bool) (i : nat)
    (rest : list (option jsstring)) (text : jsstring) : jsstring :=
  match rest with
  | [] => text
  | r :: rest' =>
      assemble_loop includeMarkers (S i) rest'
        (text ++ page_piece includeMarkers i r)
  end.

Definition assemble (includeMarkers : bool) (pageResults : list (option jsstring))
  : jsstring :=
  assemble_loop includeMarkers 0 pageResults [].

End Text.

Import Text.

(** A thrown value: the [Error] objects this file creates or receives, and
    the [TypeError] of a property read on [undefined]. *)
Inductive Exn :=
  | Error (message : jsstring)
  | TypeError (message : jsstring).

(* ===================================================================== *)
(** ** [createConcurrencyLimiter]                                         *)
(* ===================================================================== *)

Module Gate.

(** The variables the returned closure captures: [max], [active] and
    [queue].  A resolver pushed on [queue] is named by the caller it wakes. *)
Record t := mk { max : Z; active : Z; queue : list nat }.

Definition createConcurrencyLimiter (max : Z) : t :=
  {| max := max; active := 0; queue := [] |}.

(** From the loop test to the next suspension:
    [while (active >= max) await new Promise(r => queue.push(r)); active++].
    JavaScript runs it without interruption; [true] says that the caller got
    past the loop and holds a permit. *)
Definition enter (caller : nat) (g : t) : t * bool :=
  if (active g >=? max g)%Z
  then ({| max := max g; active := active g; queue := queue g ++ [caller] |},
        false)
  else ({| max := max g; active := active g + 1; queue := queue g |}, true).

(** The [finally] block: [active--; if (queue.length) queue.shift()()].
    The second component is the caller whose promise was resolved. *)
Definition leave (g : t) : t * option nat :=
  match queue g with
  | [] => ({| max := max g; active := active g - 1; queue := [] |}, None)
  | w :: q => ({| max := max g; active := active g - 1; queue := q |}, Some w)
  end.

(** *** The callers of one gate on the event loop

    Where a call [limiter(fn)] stands: not made yet, suspended in the loop
    on a promise still pending, suspended on a promise that was resolved
    (its continuation is in the microtask queue), between [active++] and
    the [finally] block, or over with the result of [fn]. *)
Inductive pc :=
  | Idle
  | Parked
  | Woken
  | Running
  | Settled (r : option Exn).

(** [rejected] is the first rejection among the calls (what a [Promise.all]
    over them rejects with); [started] lists the calls whose [fn] was
    invoked, latest first. *)
Record pool := mkPool {
  gate : t;
  pcs : list pc;
  rejected : option Exn;
  started : list nat
}.

Definition first_rejection (old new : option Exn) : option Exn :=
  match old with
  | Some e => Some e
  | None => new
  end.

(** The segment [enter] for caller [c], with the bookkeeping of the pool. *)
Definition attempt (c : nat) (s : pool) : pool :=
  let '(g, ok) := enter c (gate s) in
  {| gate := g;
     pcs := <[c := if ok then Running else Parked]> (pcs s);
     rejected := rejected s;
     started := if ok then c :: started s else started s |}.

(** The [finally] segment of caller [c], whose [fn] ended with [r] (returned,
    or threw: [try { return await fn(); } finally { ... }] runs the block in
    both cases, then the call settles as [fn] did). *)
Definition release (c : nat) (r : option Exn) (s : pool) : pool :=
  let '(g, w) := leave (gate s) in
  let p := <[c := Settled r]> (pcs s) in
  {| gate := g;
     pcs := match w with
            | Some h => <[h := Woken]> p
            | None => p
            end;
     rejected := first_rejection (rejected s) r;
     started := started s |}.

(** What the event loop runs next: the call of [limiter(fn)] by [c], the
    continuation of [c] after its promise was resolved, or the continuation
    of [c] after [fn()] settled.  [body c] is how [fn] ends for caller [c]. *)
Inductive event :=
  | Call (c : nat)
  | Resume (c : nat)
  | Exit (c : nat).

Definition step (body : nat -> option Exn) (e : event) (s : pool) : option pool :=
  match e with
  | Call c =>
      match pcs s !! c with
      | Some Idle => Some (attempt c s)
      | _ => None
      end
  | Resume c =>
      match pcs s !! c with
      | Some Woken => Some (attempt c s)
      | _ => None
      end
  | Exit c =>
      match pcs s !! c with
      | Some Running => Some (release c (body c) s)
      | _ => None
      end
  end.

Fixpoint run (body : nat -> option Exn) (evs : list event) (s : pool)
  : option pool :=
  match evs with
  | [] => Some s
  | e :: evs' =>
      match step body e s with
      | Some s' => run body evs' s'
      | None => None
      end
  end.

(** [n] calls not made yet on a fresh gate. *)
Definition fresh (max : Z) (n : nat) : pool :=
  {| gate := createConcurrencyLimiter max; pcs := replicate n Idle;
     rejected := None; started := [] |}.

(** [Array.from({ length: n }, (_, i) => limiter(...))] and
    [pageImages.map((_, i) => limiter(...))]: the [n] calls are made in index
    order before anything else runs. *)
Definition spawn (max : Z) (n : nat) : pool :=
  foldl (fun s c => attempt c s) (fresh max n) (seq 0 n).

(** The number of callers between [active++] and the [finally] block. *)
Fixpoint holders (l : list pc) : Z :=
  match l with
  | Running :: l' => 1 + holders l'
  | _ :: l' => holders l'
  | [] => 0
  end.

Definition all_settled_ok (l : list pc) : bool :=
  forallb (fun p => match p with Settled None => true | _ => false end) l.

(** The permit a caller holds. *)
Definition weight (p : pc) : Z :=
  match p with
  | Running => 1
  | _ => 0
  end.

(** The invariant of a pool: the parked callers are those of the queue, each
    once; [active] counts the callers that hold a permit; it stays within
    the limit. *)
Record inv (s : pool) : Prop := {
  inv_nodup : NoDup (queue (gate s));
  inv_parked : forall h, h ∈ queue (gate s) -> pcs s !! h = Some Parked;
  inv_active : active (gate s) = holders (pcs s);
  inv_bound : (active (gate s) <= max (gate s))%Z
}.

(** The pool after the calls of index below [k] were made on [fresh L n]. *)
Record spawned (L : Z) (n k : nat) (s : pool) : Prop := {
  sp_length : length (pcs s) = n;
  sp_kind : forall c p, pcs s !! c = Some p ->
              p = Running \/ p = Parked \/ (p = Idle /\ (k <= c)%nat);
  sp_idle : forall c, (k <= c < n)%nat -> pcs s !! c = Some Idle;
  sp_running : forall c, (c < k)%nat -> (Z.of_nat c < L)%Z ->
                 pcs s !! c = Some Running;
  sp_active : (Z.of_nat k <= L)%Z -> active (gate s) = Z.of_nat k;
  sp_max : max (gate s) = L
}.

(** Three calls on a gate of limit 1; the second one throws. *)
Definition sample_body (c : nat) : option Exn :=
  if Nat.eqb c 1 then Some (Error (lit "boom")) else None.

Definition sample_events : list event :=
  [Call 0; Call 1; Call 2; Exit 0; Resume 1; Exit 1; Resume 2]%nat.

End Gate.

(* ===================================================================== *)
(** ** The pipelined phase of [_runOcrProcessingPipeline]                 *)
(* ===================================================================== *)

Module Pipeline.

(** What the run depends on from outside: the two limits read from the
    configuration, whether [documentAiClient] was assigned, how
    [_enhanceImageUsingSharp] ends for the page of index [i], and how the
    reading of the enhanced image and [processDocument] end for it: an
    exception, or [doc.text] ([None] when it is [undefined]). *)
Record env := mkEnv {
  CONCURRENCY_IMAGE_ENHANCEMENT : Z;
  CONCURRENCY_GOOGLE_OCR : Z;
  documentAiClient : bool;
  enhance_answer : nat -> option Exn;
  ocr_answer : nat -> Exn + option jsstring
}.

Definition undefined_client : Exn :=
  TypeError (lit "Cannot read properties of undefined (reading 'processDocument')").

(** [_performDocumentAiOcrOnImage] followed by [doc.text]: with the client
    left [undefined] the member access throws before any request is made. *)
Definition recognition (v : env) (i : nat) : Exn + option jsstring :=
  if documentAiClient v then ocr_answer v i else inl undefined_client.

(** How the function given to [ocrLimiter] ends for page index [i]. *)
Definition ocr_outcome (v : env) (i : nat) : option Exn :=
  match recognition v i with
  | inl e => Some e
  | inr _ => None
  end.

(** [pageResults[i] = _normalizeExtractedText(doc.text || "")] *)
Definition page_text (t : option jsstring) : jsstring :=
  _normalizeExtractedText (Some (or_empty t)).

(** Where the function given to [ocrLimiter] stands once it runs: suspended
    on [enhancedPromises[i].promise], in [_performDocumentAiOcrOnImage], or
    over. *)
Inductive ostage :=
  | AwaitSignal
  | Recognizing
  | Finished.

(** The two gates with their calls, the per-page promises
    ([enhanced !! i] says that [enhancedPromises[i].resolve] was called),
    whether the function given to [enhanceLimiter] is over, the stage of the
    one given to [ocrLimiter], the array [pageResults] ([None] is a slot
    never assigned), the pages for which a recognition request was issued
    (latest first), and the first rejection, which is what
    [Promise.all([...enhanceTasks, ...ocrTasks])] rejects with. *)
Record state := mkState {
  enhancing : Gate.pool;
  recognizing : Gate.pool;
  enhanced : list bool;
  e_finished : list bool;
  o_stage : list ostage;
  pageResults : list (option jsstring);
  requests : list nat;
  failure : option Exn
}.

(** After [new Array(totalPages)], [Array.from({ length: totalPages }, ...)]
    and the two [pageImages.map(...)]: every call of both limiters is made,
    in index order. *)
Definition init (v : env) (totalPages : nat) : state :=
  {| enhancing := Gate.spawn (CONCURRENCY_IMAGE_ENHANCEMENT v) totalPages;
     recognizing := Gate.spawn (CONCURRENCY_GOOGLE_OCR v) totalPages;
     enhanced := replicate totalPages false;
     e_finished := replicate totalPages false;
     o_stage := replicate totalPages AwaitSignal;
     pageResults := replicate totalPages None;
     requests := [];
     failure := None |}.

(** The continuations the event loop may run, for the page of index [i]:
    - [EResume]: the enhancement call leaves the loop of its limiter;
    - [EFinish]: [_enhanceImageUsingSharp] is over; on success the page's
      promise is resolved;
    - [ERelease]: the [finally] block of the enhancement call;
    - [OResume]: the recognition call leaves the loop of its limiter;
    - [OProceed]: [await enhancedPromises[i].promise] returns and
      [_performDocumentAiOcrOnImage] starts;
    - [OFinish]: it is over; on success [pageResults[i]] is assigned;
    - [ORelease]: the [finally] block of the recognition call. *)
Inductive event :=
  | EResume (i : nat)
  | EFinish (i : nat)
  | ERelease (i : nat)
  | OResume (i : nat)
  | OProceed (i : nat)
  | OFinish (i : nat)
  | ORelease (i : nat).

Definition with_enhancing (s : state) (p : Gate.pool) (f : option Exn) : state :=
  {| enhancing := p; recognizing := recognizing s; enhanced := enhanced s;
     e_finished := e_finished s; o_stage := o_stage s;
     pageResults := pageResults s; requests := requests s;
     failure := f |}.

Definition with_recognizing (s : state) (p : Gate.pool) (f : option Exn) : state :=
  {| enhancing := enhancing s; recognizing := p; enhanced := enhanced s;
     e_finished := e_finished s; o_stage := o_stage s;
     pageResults := pageResults s; requests := requests s;
     failure := f |}.

Definition step (v : env) (e : event) (s : state) : option state :=
  match e with
  | EResume i =>
      p ← Gate.step (enhance_answer v) (Gate.Resume i) (enhancing s);
      Some (with_enhancing s p (failure s))
  | EFinish i =>
      match Gate.pcs (enhancing s) !! i, e_finished s !! i with
      | Some Gate.Running, Some false =>
          Some {| enhancing := enhancing s; recognizing := recognizing s;
                  enhanced := match enhance_answer v i with
                              | None => <[i := true]> (enhanced s)
                              | Some _ => enhanced s
                              end;
                  e_finished := <[i := true]> (e_finished s);
                  o_stage := o_stage s; pageResults := pageResults s;
                  requests := requests s; failure := failure s |}
      | _, _ => None
      end
  | ERelease i =>
      match e_finished s !! i with
      | Some true =>
          p ← Gate.step (enhance_answer v) (Gate.Exit i) (enhancing s);
          Some (with_enhancing s p
                  (Gate.first_rejection (failure s) (enhance_answer v i)))
      | _ => None
      end
  | OResume i =>
      p ← Gate.step (ocr_outcome v) (Gate.Resume i) (recognizing s);
      Some (with_recognizing s p (failure s))
  | OProceed i =>
      match Gate.pcs (recognizing s) !! i, o_stage s !! i, enhanced s !! i with
      | Some Gate.Running, Some AwaitSignal, Some true =>
          Some {| enhancing := enhancing s; recognizing := recognizing s;
                  enhanced := enhanced s; e_finished := e_finished s;
                  o_stage := <[i := Recognizing]> (o_stage s);
                  pageResults := pageResults s;
                  requests := if documentAiClient v then i :: requests s
                              else requests s;
                  failure := failure s |}
      | _, _, _ => None
      end
  | OFinish i =>
      match o_stage s !! i with
      | Some Recognizing =>
          Some {| enhancing := enhancing s; recognizing := recognizing s;
                  enhanced := enhanced s; e_finished := e_finished s;
                  o_stage := <[i := Finished]> (o_stage s);
                  pageResults := match recognition v i with
                                 | inr t => <[i := Some (page_text t)]> (pageResults s)
                                 | inl _ => pageResults s
                                 end;
                  requests := requests s; failure := failure s |}
      | _ => None
      end
  | ORelease i =>
      match o_stage s !! i with
      | Some Finished =>
          p ← Gate.step (ocr_outcome v) (Gate.Exit i) (recognizing s);
          Some (with_recognizing s p
                  (Gate.first_rejection (failure s) (ocr_outcome v i)))
      | _ => None
      end
  end.

Fixpoint run (v : env) (evs : list event) (s : state) : option state :=
  match evs with
  | [] => Some s
  | e :: evs' =>
      match step v e s with
      | Some s' => run v evs' s'
      | None => None
      end
  end.

(** The text of each page in page order, as the recognition of every page
    leaves it (the empty string stands in where recognition fails). *)
Definition recognized_texts (v : env) (totalPages : nat) : list jsstring :=
  (fun i => match recognition v i with
            | inr t => page_text t
            | inl _ => []
            end) <$> seq 0 totalPages.

(** Every call of both limiters resolved: [Promise.all] fulfils. *)
Definition completed (s : state) : bool :=
  Gate.all_settled_ok (Gate.pcs (enhancing s))
  && Gate.all_settled_ok (Gate.pcs (recognizing s)).

(** What holds of every state the event loop can reach. *)
Record inv (v : env) (N : nat) (s : state) : Prop := {
  len_epcs : length (Gate.pcs (enhancing s)) = N;
  len_opcs : length (Gate.pcs (recognizing s)) = N;
  len_enhanced : length (enhanced s) = N;
  len_finished : length (e_finished s) = N;
  len_stage : length (o_stage s) = N;
  len_results : length (pageResults s) = N;
  (** a page's promise is resolved by its own enhancement, after it
      succeeded *)
  signal_sound : forall i, enhanced s !! i = Some true ->
    e_finished s !! i = Some true /\ enhance_answer v i = None;
  (** recognition is entered through the resolved promise only *)
  stage_sound : forall i,
    o_stage s !! i = Some Recognizing \/ o_stage s !! i = Some Finished ->
    enhanced s !! i = Some true;
  request_sound : forall i, i ∈ requests s ->
    documentAiClient v = true /\ enhanced s !! i = Some true;
  (** a recognition that succeeded has assigned its own slot *)
  result_sound : forall i t, o_stage s !! i = Some Finished ->
    recognition v i = inr t ->
    pageResults s !! i = Some (Some (page_text t));
  settled_e : forall i r, Gate.pcs (enhancing s) !! i = Some (Gate.Settled r) ->
    e_finished s !! i = Some true /\ r = enhance_answer v i;
  settled_o : forall i r, Gate.pcs (recognizing s) !! i = Some (Gate.Settled r) ->
    o_stage s !! i = Some Finished /\ r = ocr_outcome v i;
  (** a rejection is an exception of a stage of some page *)
  failure_sound : forall e, failure s = Some e ->
    exists i, (i < N)%nat /\ (enhance_answer v i = Some e \/ ocr_outcome v i = Some e)
}.

(** Two pages, at most two enhancements and one recognition at a time. *)
Definition two_pages : env :=
  {| CONCURRENCY_IMAGE_ENHANCEMENT := 2; CONCURRENCY_GOOGLE_OCR := 1;
     documentAiClient := true;
     enhance_answer := fun _ => None;
     ocr_answer := fun i => inr (Some (decimal i)) |}.

End Pipeline.

(* ===================================================================== *)
(** ** The coordinator: [_runOcrProcessingPipeline] and what it calls     *)
(* ===================================================================== *)

Module Coordinator.

(** A path, as its components below [os.tmpdir()]. *)
Abbreviation path := (list string).

(** The operations on the outside world, as the trace records them. *)
Inductive Call :=
  | Mkdir (p : path)
  | WriteFile (p : path)
  | Readdir (p : path)
  | Stat (p : path)
  | Rm (p : path)
  | MutoolShowCount (pdf : path)
  | MutoolDraw (pageNum : nat)
  | SharpEnhance (pageNum : nat)
  | ProcessDocument (pageNum : nat).

(** The paths that exist below the temporary directory, and the operations
    made so far, oldest first. *)
Record world := mkWorld {
  files : gset path;
  trace : list Call
}.

(** How an awaited call ends: it returns, it throws, or its promise never
    settles. *)
Inductive outcome (A : Type) :=
  | Return (a : A)
  | Throw (e : Exn)
  | Pending.
Arguments Return {A} a.
Arguments Throw {A} e.
Arguments Pending {A}.

Definition M (A : Type) : Type := world -> outcome A * world.

Definition ret {A} (a : A) : M A := fun w => (Return a, w).
Definition throw {A} (e : Exn) : M A := fun w => (Throw e, w).

Definition bind {A B} (m : M A) (k : A -> M B) : M B := fun w =>
  match m w with
  | (Return a, w') => k a w'
  | (Throw e, w') => (Throw e, w')
  | (Pending, w') => (Pending, w')
  end.

(** [try { body } catch (e) { handler }] *)
Definition try_catch {A} (body : M A) (handler : Exn -> M A) : M A := fun w =>
  match body w with
  | (Throw e, w') => handler e w'
  | r => r
  end.

Notation "'let!' x ':=' m 'in' k" := (bind m (fun x => k))
  (at level 10, x name, m at level 100, k at level 200).
Notation "'do!' m 'in' k" := (bind m (fun _ => k))
  (at level 10, m at level 100, k at level 200).

Definition log (c : Call) (w : world) : world :=
  {| files := files w; trace := trace w ++ [c] |}.

(** What the callback of [exec] receives: [(e, o, s)]. *)
Inductive exec_result :=
  | ExecError (stderr : jsstring) (message : jsstring)
  | ExecOk (stdout : option jsstring).

(** The configuration, and the answers of the outside world to one run. *)
Record env := mkEnv {
  stages : Pipeline.env;
  CONCURRENCY_PDF_CONVERSION : Z;
  sessionId : string;
  fs_fault : Call -> option Exn;
  show_count : exec_result;
  draw : nat -> exec_result;
  raster_schedule : list Gate.event;
  pipeline_schedule : list Pipeline.event
}.

(** *** File system helpers *)

(** The directory [p] and those above it. *)
Definition with_parents (p : path) : gset path :=
  list_to_set ((fun n => take n p) <$> seq 1 (length p)).

(** [fsp.mkdir(p, { recursive: true })] *)
Definition mmkdir (v : env) (p : path) : M unit := fun w =>
  let w' := log (Mkdir p) w in
  match fs_fault v (Mkdir p) with
  | Some e => (Throw e, w')
  | None => (Return tt, {| files := files w' ∪ with_parents p; trace := trace w' |})
  end.

(** [fsp.writeFile(p, d)] *)
Definition mwrite (v : env) (p : path) : M unit := fun w =>
  let w' := log (WriteFile p) w in
  match fs_fault v (WriteFile p) with
  | Some e => (Throw e, w')
  | None => (Return tt, {| files := files w' ∪ {[p]}; trace := trace w' |})
  end.

(** [fsp.stat(p)] and [fsp.readdir(p)], for what this file makes of them. *)
Definition probe (v : env) (c : Call) : M unit := fun w =>
  let w' := log c w in
  match fs_fault v c with
  | Some e => (Throw e, w')
  | None => (Return tt, w')
  end.

(** [fsp.rm(p, { recursive: true, force: true })]: [p] and all below it are
    removed; with [force] a missing [p] is no error. *)
Definition mrm (p : path) : M unit := fun w =>
  (Return tt,
   {| files := filter (fun q => ~ p `prefix_of` q) (files w);
      trace := trace w ++ [Rm p] |}).

(** [execp(cmd, desc)] *)
Definition exec_error (desc stderr message : jsstring) : Exn :=
  Error (desc ++ lit " failed: "
         ++ match stderr with [] => message | _ => stderr end).

Definition execp (c : Call) (r : exec_result) (desc : jsstring) : M jsstring :=
  fun w =>
    match r with
    | ExecError s m => (Throw (exec_error desc s m), log c w)
    | ExecOk o => (Return (trim (or_empty o)), log c w)
    end.

(** *** PDF to PNG *)

Definition invalid_page_count (out : jsstring) : Exn :=
  Error (lit "Invalid page count: " ++ out).

Definition _getPdfPageCount (v : env) (pdf : path) : M Z :=
  let! out := execp (MutoolShowCount pdf) (show_count v) (lit "Get PDF page count") in
  let n := parseInt out in
  if number_falsy n || number_lt_1 n then throw (invalid_page_count out)
  else ret (default 0%Z n).

Definition page_png (outDir : path) (pageNum : nat) : path :=
  outDir ++ [String.append "page-"
               (String.append (NilEmpty.string_of_uint (Nat.to_uint pageNum)) ".png")].

(** How the function given to the limiter ends for index [i]:
    [await execp(`mutool draw ...`, `Convert page ${pageNum}`)]. *)
Definition draw_outcome (v : env) (i : nat) : option Exn :=
  match draw v (i + 1) with
  | ExecError s m =>
      Some (exec_error (lit "Convert page " ++ decimal (i + 1)) s m)
  | ExecOk _ => None
  end.

Definition settled_ok (l : list Gate.pc) (i : nat) : bool :=
  match l !! i with
  | Some (Gate.Settled None) => true
  | _ => false
  end.

(** [await Promise.all(Array.from({ length: pageCount }, (_, i) =>
    limiter(async () => ...)))]: the calls are made, the event loop runs the
    continuations of [raster_schedule]; every call that reached its function
    ran [mutool draw], and those that returned wrote their image. *)
Definition rasterize (v : env) (outDir : path) (pageCount : nat) : M unit :=
  fun w =>
    match Gate.run (draw_outcome v) (raster_schedule v)
            (Gate.spawn (CONCURRENCY_PDF_CONVERSION v) pageCount) with
    | None => (Pending, w)
    | Some p =>
        let drawn := filter (fun i => settled_ok (Gate.pcs p) i = true)
                       (seq 0 pageCount) in
        let w' :=
          {| files := files w
                      ∪ list_to_set ((fun i => page_png outDir (i + 1)) <$> drawn);
             trace := trace w
                      ++ ((fun i => MutoolDraw (i + 1)) <$> reverse (Gate.started p)) |} in
        match Gate.rejected p with
        | Some e => (Throw e, w')
        | None => if Gate.all_settled_ok (Gate.pcs p) then (Return tt, w')
                  else (Pending, w')
        end
    end.

(** [for (const f of files) totalSize += (await mstat(f)).size] *)
Fixpoint stat_all (v : env) (fs : list path) : M unit :=
  match fs with
  | [] => ret tt
  | f :: fs' => do! probe v (Stat f) in stat_all v fs'
  end.

(** The workspace is new, so that after [pageCount] conversions the listing
    of [outDir], filtered on [.png] and sorted on the number in the name, is
    [page-1.png] to [page-N.png]. *)
Definition _convertPdfToPngImages (v : env) (pdf outDir : path) : M (list path) :=
  do! mmkdir v outDir in
  let! pageCount := _getPdfPageCount v pdf in
  do! rasterize v outDir (Z.to_nat pageCount) in
  do! probe v (Readdir outDir) in
  let files := page_png outDir <$> seq 1 (Z.to_nat pageCount) in
  do! stat_all v files in
  ret files.

(** *** The main pipeline *)

Definition enhanced_png (enhancedDir : path) (pageNum : nat) : path :=
  enhancedDir ++ [String.append "page-"
                    (String.append (NilEmpty.string_of_uint (Nat.to_uint pageNum))
                       "-ocr-best.png")].

(** [await Promise.all([...enhanceTasks, ...ocrTasks])] with all that
    precedes it since [createConcurrencyLimiter]: the event loop runs the
    continuations of [pipeline_schedule]. *)
Definition pipelining (v : env) (enhancedDir : path) (totalPages : nat)
  : M (list (option jsstring)) :=
  fun w =>
    match Pipeline.run (stages v) (pipeline_schedule v)
            (Pipeline.init (stages v) totalPages) with
    | None => (Pending, w)
    | Some s =>
        let written := filter (fun i => Pipeline.enhanced s !! i = Some true)
                         (seq 0 totalPages) in
        let w' :=
          {| files := files w
                      ∪ list_to_set ((fun i => enhanced_png enhancedDir (i + 1)) <$> written);
             trace := trace w
                      ++ ((fun i => SharpEnhance (i + 1))
                            <$> reverse (Gate.started (Pipeline.enhancing s)))
                      ++ ((fun i => ProcessDocument (i + 1))
                            <$> reverse (Pipeline.requests s)) |} in
        match Pipeline.failure s with
        | Some e => (Throw e, w')
        | None => if Pipeline.completed s then (Return (Pipeline.pageResults s), w')
                  else (Pending, w')
        end
    end.

Record result := mkResult {
  success : bool;
  text : jsstring;
  pages : nat;
  length : nat
}.

Definition session_dir (v : env) : path := [String.append "ocr-" (sessionId v)].

(** The [try] block. *)
Definition pipeline_body (v : env) (includeMarkers : bool) : M result :=
  let session := session_dir v in
  let pdfPath := session ++ ["input.pdf"] in
  let pagesDir := session ++ ["pages"] in
  let enhancedDir := session ++ ["ocr_best"] in
  do! mmkdir v pagesDir in
  do! mmkdir v enhancedDir in
  do! mwrite v pdfPath in
  let! pageImages := _convertPdfToPngImages v pdfPath pagesDir in
  let totalPages := List.length pageImages in
  let! pageResults := pipelining v enhancedDir totalPages in
  let text := assemble includeMarkers pageResults in
  do! mrm session in
  ret {| success := true;
         text := trim text;
         pages := List.length pageResults;
         length := List.length (trim text) |}.

Definition _runOcrProcessingPipeline (v : env) (includeMarkers : bool) : M result :=
  try_catch (pipeline_body v includeMarkers)
    (fun e => do! mrm (session_dir v) in throw e).

(** No path of the workspace exists. *)
Definition workspace_absent (v : env) (w : world) : Prop :=
  forall q, q ∈ files w -> ~ session_dir v `prefix_of` q.

(** An operation on a page: a conversion, an enhancement or a recognition
    request. *)
Definition page_work (c : Call) : bool :=
  match c with
  | MutoolDraw _ | SharpEnhance _ | ProcessDocument _ => true
  | _ => false
  end.

(** The run throws the invalid-page-count error for the report [out], leaves
    no workspace, and has made no operation on a page. *)
Definition aborts_on_page_count (v : env) (b : bool) (w : world)
    (out : jsstring) : Prop :=
  exists w', _runOcrProcessingPipeline v b w = (Throw (invalid_page_count out), w')
    /\ workspace_absent v w'
    /\ exists added, trace w' = trace w ++ added
         /\ Forall (fun c => page_work c = false) added.

(** A report that the specification rejects: missing, not a number (a number
    being a non-empty sequence of decimal digits), or less than 1. *)
Definition is_decimal_digit (c : N) : bool := (48 <=? c) && (c <=? 57).

Definition numeric (s : jsstring) : bool :=
  match s with
  | [] => false
  | _ => forallb is_decimal_digit s
  end.

Definition rejected_as_specified (out : jsstring) : Prop :=
  out = [] \/ numeric out = false
  \/ exists n, parseInt out = Some n /\ (n < 1)%Z.

(** *** Initialisation of the client

    [(async () => { if (!await mexists(KEYFILE)) throw new Error(...);
    documentAiClient = new DocumentProcessorServiceClient(...); })()]: the
    promise of this call is dropped, so that its rejection reaches no caller;
    the first component says whether [documentAiClient] is assigned
    afterwards, the second is the rejection. *)
Definition init_documentAiClient (keyfile_exists : bool) (KEYFILE : jsstring)
  : bool * option Exn :=
  if keyfile_exists then (true, None)
  else (false, Some (Error (lit "Credentials not found: " ++ KEYFILE))).

(** The same run with the continuations in another order. *)
Definition reschedule (v : env) (rs : list Gate.event) (ps : list Pipeline.event)
  : env :=
  {| stages := stages v;
     CONCURRENCY_PDF_CONVERSION := CONCURRENCY_PDF_CONVERSION v;
     sessionId := sessionId v;
     fs_fault := fs_fault v;
     show_count := show_count v;
     draw := draw v;
     raster_schedule := rs;
     pipeline_schedule := ps |}.

(** The text of page [i] (from 0) in the result: what the assembly loop
    appends for it. *)
Definition page_segment (includeMarkers : bool) (i : nat) (t : jsstring)
  : jsstring :=
  page_piece includeMarkers i (Some t).

(** *** Sample runs *)

Definition empty_world : world := {| files := ∅; trace := [] |}.

Definition two_page_schedule : list Pipeline.event :=
  [Pipeline.EFinish 1; Pipeline.EFinish 0; Pipeline.OProceed 0;
   Pipeline.ERelease 0; Pipeline.ERelease 1; Pipeline.OFinish 0;
   Pipeline.ORelease 0; Pipeline.OResume 1; Pipeline.OProceed 1;
   Pipeline.OFinish 1; Pipeline.ORelease 1]%nat.

(** Two pages, the first one through both stages before the second. *)
Definition page_by_page_schedule : list Pipeline.event :=
  [Pipeline.EFinish 0; Pipeline.OProceed 0; Pipeline.OFinish 0;
   Pipeline.ERelease 0; Pipeline.ORelease 0; Pipeline.OResume 1;
   Pipeline.EFinish 1; Pipeline.OProceed 1; Pipeline.ERelease 1;
   Pipeline.OFinish 1; Pipeline.ORelease 1]%nat.

(** A document whose page count is reported as ["2 pages"]; every call
    succeeds; page 2 is enhanced before page 1. *)
Definition two_pages_report : env :=
  {| stages := {| Pipeline.CONCURRENCY_IMAGE_ENHANCEMENT := 2;
                  Pipeline.CONCURRENCY_GOOGLE_OCR := 1;
                  Pipeline.documentAiClient := true;
                  Pipeline.enhance_answer := fun _ => None;
                  Pipeline.ocr_answer := fun i => inr (Some (lit "p" ++ decimal (i + 1))) |};
     CONCURRENCY_PDF_CONVERSION := 2;
     sessionId := "00ff00ff00ff00ff";
     fs_fault := fun _ => None;
     show_count := ExecOk (Some (lit "2 pages" ++ [LF]));
     draw := fun _ => ExecOk None;
     raster_schedule := [Gate.Exit 1; Gate.Exit 0]%nat;
     pipeline_schedule := two_page_schedule |}.

(** A document whose page count is reported as ["0"]. *)
Definition zero_pages_report : env :=
  {| stages := stages two_pages_report;
     CONCURRENCY_PDF_CONVERSION := 2;
     sessionId := "00ff00ff00ff00ff";
     fs_fault := fun _ => None;
     show_count := ExecOk (Some (lit "0" ++ [LF]));
     draw := fun _ => ExecOk None;
     raster_schedule := [];
     pipeline_schedule := [] |}.

Definition one_page_schedule : list Pipeline.event :=
  [Pipeline.EFinish 0; Pipeline.OProceed 0; Pipeline.ERelease 0;
   Pipeline.OFinish 0; Pipeline.ORelease 0]%nat.

(** A document of one page recognised as ["Hello"]. *)
Definition hello_page : env :=
  {| stages := {| Pipeline.CONCURRENCY_IMAGE_ENHANCEMENT := 4;
                  Pipeline.CONCURRENCY_GOOGLE_OCR := 2;
                  Pipeline.documentAiClient := true;
                  Pipeline.enhance_answer := fun _ => None;
                  Pipeline.ocr_answer := fun _ => inr (Some (lit "Hello")) |};
     CONCURRENCY_PDF_CONVERSION := 4;
     sessionId := "0123456789abcdef";
     fs_fault := fun _ => None;
     show_count := ExecOk (Some (lit "1" ++ [LF]));
     draw := fun _ => ExecOk None;
     raster_schedule := [Gate.Exit 0]%nat;
     pipeline_schedule := one_page_schedule |}.

(** The same document when the credentials file was absent at load time. *)
Definition KEYFILE : jsstring := lit "/srv/ocr/conf/thaiocr.json".

Definition no_credentials : env :=
  {| stages := {| Pipeline.CONCURRENCY_IMAGE_ENHANCEMENT := 4;
                  Pipeline.CONCURRENCY_GOOGLE_OCR := 2;
                  Pipeline.documentAiClient :=
                    (init_documentAiClient false KEYFILE).1;
                  Pipeline.enhance_answer := fun _ => None;
                  Pipeline.ocr_answer := fun _ => inr (Some (lit "Hello")) |};
     CONCURRENCY_PDF_CONVERSION := 4;
     sessionId := "0123456789abcdef";
     fs_fault := fun _ => None;
     show_count := ExecOk (Some (lit "1" ++ [LF]));
     draw := fun _ => ExecOk None;
     raster_schedule := [Gate.Exit 0]%nat;
     pipeline_schedule := one_page_schedule |}.

(** Three pages recognised as ["A"], nothing, and ["C"]; the last page is
    enhanced first and at most one page is recognised at a time. *)
Definition three_page_schedule : list Pipeline.event :=
  [Pipeline.EFinish 2; Pipeline.ERelease 2; Pipeline.EFinish 0;
   Pipeline.OProceed 0; Pipeline.EFinish 1; Pipeline.ERelease 1;
   Pipeline.ERelease 0; Pipeline.OFinish 0; Pipeline.ORelease 0;
   Pipeline.OResume 1; Pipeline.OProceed 1; Pipeline.OFinish 1;
   Pipeline.ORelease 1; Pipeline.OResume 2; Pipeline.OProceed 2;
   Pipeline.OFinish 2; Pipeline.ORelease 2]%nat.

Definition a_blank_c : env :=
  {| stages := {| Pipeline.CONCURRENCY_IMAGE_ENHANCEMENT := 3;
                  Pipeline.CONCURRENCY_GOOGLE_OCR := 1;
                  Pipeline.documentAiClient := true;
                  Pipeline.enhance_answer := fun _ => None;
                  Pipeline.ocr_answer := fun i =>
                    inr (if Nat.eqb i 0 then Some (lit "A")
                         else if Nat.eqb i 1 then None
                         else Some (lit "C")) |};
     CONCURRENCY_PDF_CONVERSION := 1;
     sessionId := "0123456789abcdef";
     fs_fault := fun _ => None;
     show_count := ExecOk (Some (lit "3" ++ [LF]));
     draw := fun _ => ExecOk None;
     raster_schedule :=
       [Gate.Exit 0; Gate.Resume 1; Gate.Exit 1; Gate.Resume 2; Gate.Exit 2]%nat;
     pipeline_schedule := three_page_schedule |}.

(** Two pages; the recognition of the second fails. *)
Definition quota_error : Exn := Error (lit "8 RESOURCE_EXHAUSTED: quota exceeded").

Definition second_page_fails : env :=
  {| stages := {| Pipeline.CONCURRENCY_IMAGE_ENHANCEMENT := 2;
                  Pipeline.CONCURRENCY_GOOGLE_OCR := 1;
                  Pipeline.documentAiClient := true;
                  Pipeline.enhance_answer := fun _ => None;
                  Pipeline.ocr_answer := fun i =>
                    if Nat.eqb i 1 then inl quota_error
                    else inr (Some (lit "first")) |};
     CONCURRENCY_PDF_CONVERSION := 2;
     sessionId := "00ff00ff00ff00ff";
     fs_fault := fun _ => None;
     show_count := ExecOk (Some (lit "2" ++ [LF]));
     draw := fun _ => ExecOk None;
     raster_schedule := [Gate.Exit 1; Gate.Exit 0]%nat;
     pipeline_schedule := two_page_schedule |}.

End Coordinator.

(* ===================================================================== *)
(** * Theorems                                                            *)
(* ===================================================================== *)

Module TextFacts.
Import Text.

Ltac by_length s :=
  let n := fresh "n" in
  assert (Hle : exists n, (length s <= n)%nat) by (exists (length s); lia);
  destruct Hle as [n Hle];
  revert s Hle; induction n as [|n IHn]; intros s Hle;
  [destruct s; [|simpl in Hle; lia] | ].

Ltac len := cbn [length] in *; lia.

(** ** The scan of [replace_global] *)

Section Scan.
Variable m : matcher.
Variable rep : jsstring.
Hypothesis m_nil : m [] = None.

Lemma replace_from_drop k s :
  replace_from m rep k s = replace_from m rep O (drop k s).
Proof.
  revert k; induction s as [|c r IH]; intros [|k]; simpl;
    rewrite ?m_nil; auto.
Qed.

Lemma replace_global_nil : replace_global m rep [] = [].
Proof. unfold replace_global; simpl. by rewrite m_nil. Qed.

Lemma replace_global_miss c r :
  m (c :: r) = None ->
  replace_global m rep (c :: r) = c :: replace_global m rep r.
Proof. unfold replace_global; simpl. by intros ->. Qed.

Lemma replace_global_hit c r k :
  m (c :: r) = Some (S k) ->
  replace_global m rep (c :: r) = rep ++ replace_global m rep (drop k r).
Proof.
  unfold replace_global; simpl. intros ->. by rewrite replace_from_drop.
Qed.
End Scan.

Lemma is_blank_not_lf c : is_blank c = true -> is_lf c = false.
Proof.
  unfold is_blank, is_lf, SP, TAB, LF. intros H.
  apply orb_true_iff in H as [H|H]; apply N.eqb_eq in H; by subst.
Qed.

Lemma is_lf_eq c : is_lf c = true -> c = LF.
Proof. unfold is_lf. apply N.eqb_eq. Qed.

(** *** [/\r\n/g] *)
Lemma crlf_to_lf_cons2 c d r :
  crlf_to_lf (c :: d :: r)
  = if is_cr c && is_lf d then LF :: crlf_to_lf r else c :: crlf_to_lf (d :: r).
Proof. done. Qed.

Lemma scan_crlf s : replace_global re_crlf [LF] s = crlf_to_lf s.
Proof.
  by_length s; [done | ].
  destruct s as [|c [|d r]]; [done | done | ].
  rewrite crlf_to_lf_cons2. destruct (is_cr c && is_lf d) eqn:E.
  - rewrite (replace_global_hit _ _ eq_refl c (d :: r) 1).
    + simpl. rewrite drop_0. f_equal. apply IHn. len.
    + simpl. by rewrite E.
  - rewrite replace_global_miss by (simpl; by rewrite E).
    f_equal. apply IHn. len.
Qed.

(** *** [/[ \t]+\n/g] *)
Lemma strip_blanks_head s :
  starts_with is_lf (strip_blanks s)
  = starts_with is_lf (drop (run_length is_blank s) s).
Proof.
  induction s as [|c r IH]; [done|].
  cbn [strip_blanks run_length]. destruct (is_blank c) eqn:Eb; cbn [andb drop].
  - destruct (starts_with is_lf (strip_blanks r)) eqn:Es.
    + by rewrite <- IH.
    + rewrite <- IH. simpl. by apply is_blank_not_lf.
  - done.
Qed.

Lemma strip_blanks_run s :
  starts_with is_lf (drop (run_length is_blank s) s) = true ->
  strip_blanks s
  = LF :: strip_blanks (drop (S (run_length is_blank s)) s).
Proof.
  induction s as [|c r IH]; [done|].
  cbn [strip_blanks run_length]. destruct (is_blank c) eqn:Eb; cbn [andb drop].
  - intros H. rewrite strip_blanks_head, H. by apply IH.
  - simpl. intros H. apply is_lf_eq in H. by subst.
Qed.

Lemma scan_blanks_lf s : replace_global re_blanks_lf [LF] s = strip_blanks s.
Proof.
  by_length s; [done | ].
  destruct s as [|c r]; [done | ].
  destruct (re_blanks_lf (c :: r)) as [k|] eqn:E.
  - unfold re_blanks_lf in E.
    destruct (run_length is_blank (c :: r)) as [|j] eqn:Ej; [done|].
    destruct (drop (S j) (c :: r)) as [|d t] eqn:Ed; [done|].
    destruct (is_lf d) eqn:El; [|done]. injection E as <-.
    rewrite (replace_global_hit _ _ eq_refl c r (S j)) by
      (unfold re_blanks_lf; by rewrite Ej, Ed, El).
    rewrite strip_blanks_run by (rewrite Ej, Ed; done).
    rewrite Ej. simpl. f_equal. apply IHn.
    rewrite length_drop. len.
  - rewrite replace_global_miss by done. rewrite IHn by len.
    cbn [strip_blanks]. destruct (is_blank c) eqn:Eb; [|done].
    rewrite strip_blanks_head. cbn [andb].
    unfold re_blanks_lf in E. cbn [run_length] in E. rewrite Eb in E.
    cbn [drop] in E.
    destruct (drop (run_length is_blank r) r) as [|d t]; [done|].
    simpl. by destruct (is_lf d).
Qed.

(** *** [/\n{3,}/g] *)
Lemma starts_lf2_run s :
  starts_with is_lf s && starts_with is_lf (tail s)
  = (2 <=? run_length is_lf s)%nat.
Proof.
  destruct s as [|c [|d r]]; simpl; [done | by destruct (is_lf c) | ].
  destruct (is_lf c), (is_lf d); done.
Qed.

Lemma squeeze_lf_unfold c r :
  squeeze_lf (c :: r)
  = if is_lf c && (2 <=? run_length is_lf (squeeze_lf r))%nat
    then squeeze_lf r else c :: squeeze_lf r.
Proof. cbn [squeeze_lf]. by rewrite <- andb_assoc, starts_lf2_run. Qed.

Lemma squeeze_lf_run_length s :
  run_length is_lf (squeeze_lf s) = (run_length is_lf s `min` 2)%nat.
Proof.
  induction s as [|c r IH]; [done|].
  rewrite squeeze_lf_unfold. cbn [run_length].
  destruct (is_lf c) eqn:Ec; cbn [andb].
  - destruct (2 <=? run_length is_lf (squeeze_lf r))%nat eqn:E2.
    + apply Nat.leb_le in E2. lia.
    + apply Nat.leb_gt in E2. cbn [run_length]. rewrite Ec. lia.
  - cbn [run_length]. by rewrite Ec.
Qed.

Lemma squeeze_lf_run s :
  squeeze_lf s
  = replicate (run_length is_lf s `min` 2) LF
      ++ squeeze_lf (drop (run_length is_lf s) s).
Proof.
  induction s as [|c r IH]; [done|].
  cbn [run_length]. destruct (is_lf c) eqn:Ec; [|done].
  cbn [drop]. rewrite squeeze_lf_unfold, Ec, squeeze_lf_run_length. cbn [andb].
  apply is_lf_eq in Ec as ->.
  destruct (2 <=? run_length is_lf r `min` 2)%nat eqn:E2.
  - apply Nat.leb_le in E2. rewrite IH at 1. f_equal. f_equal. lia.
  - apply Nat.leb_gt in E2. rewrite IH at 1.
    replace (S (run_length is_lf r) `min` 2)%nat
      with (S (run_length is_lf r `min` 2)) by lia.
    done.
Qed.

Lemma scan_lf3 s : replace_global re_lf3 [LF; LF] s = squeeze_lf s.
Proof.
  by_length s; [done | ].
  destruct s as [|c r]; [done | ].
  destruct (re_lf3 (c :: r)) as [k|] eqn:E; unfold re_lf3 in E;
    destruct (3 <=? run_length is_lf (c :: r))%nat eqn:E3; try done.
  - injection E as <-. apply Nat.leb_le in E3.
    destruct (run_length is_lf (c :: r)) as [|j] eqn:Ej; [lia|].
    rewrite (replace_global_hit _ _ eq_refl c r j) by
      (unfold re_lf3; rewrite Ej; by apply Nat.leb_le in E3 as ->).
    rewrite (squeeze_lf_run (c :: r)), Ej. cbn [drop].
    replace (S j `min` 2)%nat with 2%nat by lia.
    simpl. do 2 f_equal. apply IHn. rewrite length_drop. len.
  - rewrite replace_global_miss by (unfold re_lf3; by rewrite E3).
    rewrite IHn by len. rewrite squeeze_lf_unfold, squeeze_lf_run_length.
    apply Nat.leb_gt in E3. cbn [run_length] in E3.
    destruct (is_lf c); [|done]. cbn [andb].
    by replace (2 <=? run_length is_lf r `min` 2)%nat with false
      by (symmetry; apply Nat.leb_gt; lia).
Qed.

(** The source function, as the composition of the four readings. *)
Lemma normalize_unfold t :
  _normalizeExtractedText t
  = trim (squeeze_lf (strip_blanks (crlf_to_lf (or_empty t)))).
Proof.
  unfold _normalizeExtractedText.
  by rewrite scan_crlf, scan_blanks_lf, scan_lf3.
Qed.

(** ** Windows and their occurrences *)

Lemma at_crlf_monotone : monotone at_crlf.
Proof. intros [|c [|d a]] b; simpl; done. Qed.

Lemma at_blank_lf_monotone : monotone at_blank_lf.
Proof. intros [|c [|d a]] b; simpl; done. Qed.

Lemma at_lf3_monotone : monotone at_lf3.
Proof. intros [|c [|d [|e a]]] b; simpl; done. Qed.

Lemma occurs_cons w c r : occurs w (c :: r) = w (c :: r) || occurs w r.
Proof. done. Qed.

Lemma occurs_app_r w a b : occurs w b = true -> occurs w (a ++ b) = true.
Proof.
  intros H. induction a as [|c a IH]; [done|].
  simpl. rewrite IH. apply orb_true_r.
Qed.

Lemma occurs_app_l w a b :
  monotone w -> occurs w a = true -> occurs w (a ++ b) = true.
Proof.
  intros Hw. induction a as [|c a IH]; [done|].
  simpl. intros H. apply orb_true_iff in H as [H|H].
  - apply (Hw _ b) in H. simpl in H. by rewrite H.
  - rewrite IH by done. apply orb_true_r.
Qed.

Lemma occurs_infix w pre t post :
  monotone w -> occurs w (pre ++ t ++ post) = false -> occurs w t = false.
Proof.
  intros Hw H. destruct (occurs w t) eqn:E; [|done].
  rewrite occurs_app_r in H; [done|]. by apply occurs_app_l.
Qed.

(** ** [trim] keeps a middle part of the text *)

Lemma trim_start_suffix s : exists pre, s = pre ++ trim_start s.
Proof.
  induction s as [|c r [pre IH]]; [by exists []|].
  simpl. destruct (is_ws c).
  - exists (c :: pre). simpl. by f_equal.
  - by exists [].
Qed.

Lemma trim_end_prefix s : exists post, s = trim_end s ++ post.
Proof.
  unfold trim_end. destruct (trim_start_suffix (reverse s)) as [pre H].
  exists (reverse pre). rewrite <- reverse_app, <- H.
  by rewrite reverse_involutive.
Qed.

Lemma trim_infix s : exists pre post, s = pre ++ trim s ++ post.
Proof.
  unfold trim. destruct (trim_start_suffix s) as [pre H].
  destruct (trim_end_prefix (trim_start s)) as [post H'].
  exists pre, post. by rewrite <- H', <- H.
Qed.

Lemma trim_start_head s : starts_with is_ws (trim_start s) = false.
Proof.
  induction s as [|c r IH]; [done|]. simpl.
  destruct (is_ws c) eqn:E; [done|]. simpl. exact E.
Qed.

Lemma trim_start_id s : starts_with is_ws s = false -> trim_start s = s.
Proof. destruct s as [|c r]; [done|]. simpl. by intros ->. Qed.

Lemma trimmed_trim s : trimmed (trim s) = true.
Proof.
  unfold trimmed. apply andb_true_iff. split; apply negb_true_iff.
  - unfold trim. pose proof (trim_start_head s) as Hh.
    destruct (trim_end_prefix (trim_start s)) as [post Hp].
    destruct (trim_end (trim_start s)) as [|c r]; [done|].
    rewrite Hp in Hh. exact Hh.
  - unfold trim, trim_end. rewrite reverse_involutive. apply trim_start_head.
Qed.

Lemma trim_id s : trimmed s = true -> trim s = s.
Proof.
  unfold trimmed. intros H. apply andb_true_iff in H as [H1 H2].
  apply negb_true_iff in H1, H2. unfold trim, trim_end.
  rewrite (trim_start_id s) by done. rewrite trim_start_id by done.
  apply reverse_involutive.
Qed.

(** ** Every step only removes code units *)

Lemma crlf_to_lf_sublist s : crlf_to_lf s `sublist_of` s.
Proof.
  by_length s; [done | ].
  destruct s as [|c [|d r]]; [done | done | ].
  rewrite crlf_to_lf_cons2. destruct (is_cr c && is_lf d) eqn:E.
  - apply andb_true_iff in E as [_ E]. apply is_lf_eq in E as ->.
    apply sublist_cons, sublist_skip. apply IHn. len.
  - apply sublist_skip. apply (IHn (d :: r)). len.
Qed.

Lemma strip_blanks_sublist s : strip_blanks s `sublist_of` s.
Proof.
  induction s as [|c r IH]; [done|]. cbn [strip_blanks].
  destruct (is_blank c && starts_with is_lf (strip_blanks r)).
  - by apply sublist_cons.
  - by apply sublist_skip.
Qed.

Lemma squeeze_lf_sublist s : squeeze_lf s `sublist_of` s.
Proof.
  induction s as [|c r IH]; [done|]. rewrite squeeze_lf_unfold.
  destruct (is_lf c && _).
  - by apply sublist_cons.
  - by apply sublist_skip.
Qed.

Lemma trim_sublist s : trim s `sublist_of` s.
Proof.
  destruct (trim_infix s) as (pre & post & H). rewrite H at 2.
  apply sublist_inserts_l, sublist_inserts_r. done.
Qed.

Lemma normalize_sublist s : normalize s `sublist_of` crlf_to_lf s.
Proof.
  unfold normalize. rewrite normalize_unfold. simpl or_empty.
  etrans; [apply trim_sublist|]. etrans; [apply squeeze_lf_sublist|].
  apply strip_blanks_sublist.
Qed.

(** ** What each step establishes, and when it changes nothing *)

Lemma at_crlf_cons c r : at_crlf (c :: r) = is_cr c && starts_with is_lf r.
Proof. destruct r; simpl; [by rewrite andb_false_r | done]. Qed.

Lemma at_blank_lf_cons c r :
  at_blank_lf (c :: r) = is_blank c && starts_with is_lf r.
Proof. destruct r; simpl; [by rewrite andb_false_r | done]. Qed.

Lemma at_lf3_cons c r :
  at_lf3 (c :: r)
  = is_lf c && starts_with is_lf r && starts_with is_lf (tail r).
Proof.
  destruct r as [|d [|e r]]; simpl; rewrite ?andb_false_r; done.
Qed.

Lemma strip_blanks_clean s : has_blank_lf (strip_blanks s) = false.
Proof.
  unfold has_blank_lf. induction s as [|c r IH]; [done|].
  cbn [strip_blanks].
  destruct (is_blank c && starts_with is_lf (strip_blanks r)) eqn:E; [done|].
  cbn [occurs]. by rewrite at_blank_lf_cons, E, IH.
Qed.

Lemma strip_blanks_id s : has_blank_lf s = false -> strip_blanks s = s.
Proof.
  unfold has_blank_lf. induction s as [|c r IH]; [done|].
  cbn [occurs]. rewrite at_blank_lf_cons. intros H.
  apply orb_false_iff in H as [H1 H2].
  cbn [strip_blanks]. rewrite (IH H2). by rewrite H1.
Qed.

Lemma squeeze_lf_clean s : has_lf3 (squeeze_lf s) = false.
Proof.
  unfold has_lf3. induction s as [|c r IH]; [done|].
  cbn [squeeze_lf].
  destruct (is_lf c && starts_with is_lf (squeeze_lf r)
            && starts_with is_lf (tail (squeeze_lf r))) eqn:E; [done|].
  cbn [occurs]. by rewrite at_lf3_cons, E, IH.
Qed.

Lemma squeeze_lf_id s : has_lf3 s = false -> squeeze_lf s = s.
Proof.
  unfold has_lf3. induction s as [|c r IH]; [done|].
  cbn [occurs]. rewrite at_lf3_cons. intros H.
  apply orb_false_iff in H as [H1 H2].
  cbn [squeeze_lf]. rewrite (IH H2). by rewrite H1.
Qed.

Lemma squeeze_lf_head s : starts_with is_lf (squeeze_lf s) = starts_with is_lf s.
Proof.
  destruct s as [|c r]; [done|]. cbn [squeeze_lf].
  destruct (is_lf c && starts_with is_lf (squeeze_lf r)
            && starts_with is_lf (tail (squeeze_lf r))) eqn:E; [|done].
  apply andb_true_iff in E as [E _]. apply andb_true_iff in E as [E1 E2].
  simpl. by rewrite E1, E2.
Qed.

Lemma squeeze_lf_keeps_clean s :
  has_blank_lf s = false -> has_blank_lf (squeeze_lf s) = false.
Proof.
  unfold has_blank_lf. induction s as [|c r IH]; [done|].
  cbn [occurs]. rewrite at_blank_lf_cons. intros H.
  apply orb_false_iff in H as [H1 H2]. cbn [squeeze_lf].
  destruct (is_lf c && _ && _); [by apply IH|].
  cbn [occurs]. by rewrite at_blank_lf_cons, squeeze_lf_head, H1, IH.
Qed.

Lemma crlf_to_lf_id s : has_crlf s = false -> crlf_to_lf s = s.
Proof.
  unfold has_crlf. induction s as [|c r IH]; [done|].
  cbn [occurs]. intros H. apply orb_false_iff in H as [H1 H2].
  destruct r as [|d r]; [done|]. simpl in H1. rewrite crlf_to_lf_cons2.
  rewrite H1. f_equal. by apply IH.
Qed.

Lemma crlf_to_lf_shrinks s :
  has_crlf s = true -> (length (crlf_to_lf s) < length s)%nat.
Proof.
  unfold has_crlf. by_length s; [done | ].
  destruct s as [|c [|d r]]; [done | done | ].
  rewrite occurs_cons, at_crlf_cons. cbn [starts_with]. rewrite crlf_to_lf_cons2.
  destruct (is_cr c && is_lf d) eqn:E; cbn [orb].
  - intros _. pose proof (sublist_length _ _ (crlf_to_lf_sublist r)). len.
  - intros H. apply IHn in H; len.
Qed.

Lemma crlf_to_lf_no_cr s : has_stray_cr s = false -> CR ∉ crlf_to_lf s.
Proof.
  unfold has_stray_cr. by_length s; [by intros _ ?%elem_of_nil | ].
  destruct s as [|c [|d r]]; [by intros _ ?%elem_of_nil | | ].
  - simpl. rewrite andb_true_r, orb_false_r. unfold is_cr. intros H.
    apply N.eqb_neq in H. intros Hin%list_elem_of_singleton. done.
  - rewrite occurs_cons. cbn [at_stray_cr starts_with]. rewrite crlf_to_lf_cons2.
    intros H. apply orb_false_iff in H as [H1 H2].
    destruct (is_cr c) eqn:Ec; cbn [andb] in *.
    + apply negb_false_iff in H1. rewrite H1.
      rewrite occurs_cons in H2. apply orb_false_iff in H2 as [_ H2].
      intros [?|Hin]%elem_of_cons; [done|]. revert Hin. apply IHn; [len|done].
    + intros [Hc|Hin]%elem_of_cons.
      * subst c. done.
      * revert Hin. apply (IHn (d :: r)); [len|done].
Qed.

(** ** The result of [_normalizeExtractedText] *)

Lemma normalize_eq s :
  normalize s = trim (squeeze_lf (strip_blanks (crlf_to_lf s))).
Proof. unfold normalize. by rewrite normalize_unfold. Qed.

Lemma normalize_no_blank_lf t : has_blank_lf (_normalizeExtractedText t) = false.
Proof.
  rewrite normalize_unfold.
  destruct (trim_infix (squeeze_lf (strip_blanks (crlf_to_lf (or_empty t)))))
    as (pre & post & H).
  apply (occurs_infix _ pre _ post at_blank_lf_monotone). rewrite <- H.
  apply squeeze_lf_keeps_clean, strip_blanks_clean.
Qed.

Lemma normalize_no_lf3 t : has_lf3 (_normalizeExtractedText t) = false.
Proof.
  rewrite normalize_unfold.
  destruct (trim_infix (squeeze_lf (strip_blanks (crlf_to_lf (or_empty t)))))
    as (pre & post & H).
  apply (occurs_infix _ pre _ post at_lf3_monotone). rewrite <- H.
  apply squeeze_lf_clean.
Qed.

Lemma normalize_trimmed t : trimmed (_normalizeExtractedText t) = true.
Proof. rewrite normalize_unfold. apply trimmed_trim. Qed.

Lemma no_cr_no_crlf s : CR ∉ s -> has_crlf s = false.
Proof.
  unfold has_crlf. induction s as [|c r IH]; [done|].
  intros H. apply not_elem_of_cons in H as [Hc Hr].
  rewrite occurs_cons, at_crlf_cons, (IH Hr).
  unfold is_cr. assert (Hc' : c <> CR) by congruence.
  by apply N.eqb_neq in Hc' as ->.
Qed.

Lemma normalize_no_cr t :
  has_stray_cr (or_empty t) = false -> CR ∉ _normalizeExtractedText t.
Proof.
  intros H Hin. apply (crlf_to_lf_no_cr _ H).
  apply (elem_of_sublist _ _ _ Hin). rewrite normalize_unfold.
  etrans; [apply trim_sublist|]. etrans; [apply squeeze_lf_sublist|].
  apply strip_blanks_sublist.
Qed.

(** C5, as the specification words it, fails on ["a\r\r\nb"]: the scan for
    CR LF passes over the first CR, replaces the pair that follows, and the
    result ["a\r\nb"] holds a CR LF pair. *)
Lemma normalize_as_specified_fails :
  normalize a_cr_crlf_b = lit "a" ++ [CR; LF] ++ lit "b"
  /\ ~ normalized_as_specified (normalize a_cr_crlf_b).
Proof.
  split; [by vm_compute|]. intros [H _]. vm_compute in H. discriminate.
Qed.

(** C5 (amended): for every argument, [_normalizeExtractedText] replaces each
    CR LF pair met in one left-to-right pass by LF, drops the spaces and tabs
    that stand directly before a line feed, reduces every run of three or
    more line feeds to two, and trims the white space at both ends.  Its
    result has no space or tab before a line feed, never three line feeds in
    a row (at most one blank line in a row), no white space at either end,
    and no carriage return at all when every carriage return of the argument
    was directly followed by a line feed. *)
Theorem normalize_text_spec (t : option jsstring) :
  let o := _normalizeExtractedText t in
  o = trim (squeeze_lf (strip_blanks (crlf_to_lf (or_empty t))))
  /\ (has_stray_cr (or_empty t) = false -> CR ∉ o)
  /\ has_blank_lf o = false
  /\ has_lf3 o = false
  /\ trimmed o = true.
Proof.
  cbv zeta. split; [apply normalize_unfold|].
  split; [apply normalize_no_cr|].
  split; [apply normalize_no_blank_lf|].
  split; [apply normalize_no_lf3 | apply normalize_trimmed].
Qed.

Lemma normalize_text_spec_witness :
  (CR ∉ _normalizeExtractedText
          (Some (lit " a " ++ [CR; LF; SP; LF; LF; LF] ++ lit "b ")))
  /\ _normalizeExtractedText
       (Some (lit " a " ++ [CR; LF; SP; LF; LF; LF] ++ lit "b "))
     = lit "a" ++ [LF; LF] ++ lit "b".
Proof.
  split.
  - apply (normalize_text_spec
             (Some (lit " a " ++ [CR; LF; SP; LF; LF; LF] ++ lit "b "))).
    vm_compute. reflexivity.
  - vm_compute. reflexivity.
Defined.

(** C10, as stated, fails on ["a\r\r\nb"]: the first application yields
    ["a\r\nb"], the second ["a\nb"]. *)
Lemma normalize_not_idempotent :
  normalize (normalize a_cr_crlf_b) <> normalize a_cr_crlf_b.
Proof. vm_compute. discriminate. Qed.

(** C10 (amended): applying [_normalizeExtractedText] twice gives the same
    as applying it once exactly when the first result holds no CR LF pair;
    this is so for every text in which each carriage return is directly
    followed by a line feed. *)
Theorem normalize_twice (s : jsstring) :
  (normalize (normalize s) = normalize s <-> has_crlf (normalize s) = false)
  /\ (has_stray_cr s = false -> normalize (normalize s) = normalize s).
Proof.
  assert (Hback : has_crlf (normalize s) = false ->
                  normalize (normalize s) = normalize s).
  { intros H. rewrite (normalize_eq (normalize s)).
    rewrite (crlf_to_lf_id _ H).
    rewrite strip_blanks_id by apply normalize_no_blank_lf.
    rewrite squeeze_lf_id by apply normalize_no_lf3.
    apply trim_id, normalize_trimmed. }
  split; [split; [|exact Hback]|].
  - intros Heq. destruct (has_crlf (normalize s)) eqn:E; [|done].
    apply crlf_to_lf_shrinks in E.
    pose proof (sublist_length _ _ (normalize_sublist (normalize s))) as Hl.
    rewrite Heq in Hl. lia.
  - intros H. apply Hback, no_cr_no_crlf. by apply (normalize_no_cr (Some s)).
Qed.

Lemma normalize_twice_witness :
  normalize (normalize (lit "x " ++ [CR; LF; LF; LF; TAB; LF] ++ lit "y"))
  = normalize (lit "x " ++ [CR; LF; LF; LF; TAB; LF] ++ lit "y").
Proof.
  apply (normalize_twice (lit "x " ++ [CR; LF; LF; LF; TAB; LF] ++ lit "y")).
  vm_compute. reflexivity.
Defined.

(** ** The assembly loop *)

Lemma assemble_loop_spec b i rest acc :
  assemble_loop b i rest acc
  = acc ++ concat (imap (fun j => page_piece b (i + j)) rest).
Proof.
  revert i acc; induction rest as [|r rest IH]; intros i acc; simpl.
  - by rewrite app_nil_r.
  - rewrite IH, <- app_assoc, Nat.add_0_r. do 2 f_equal.
    f_equal. apply imap_ext. intros j x _. simpl. f_equal. lia.
Qed.

(** The pieces are taken in the order of the indices. *)
Lemma assemble_spec b results :
  assemble b results = concat (imap (page_piece b) results).
Proof. unfold assemble. by rewrite assemble_loop_spec. Qed.

End TextFacts.

(* ===================================================================== *)
(** ** The concurrency gate                                               *)
(* ===================================================================== *)

Module GateFacts.
Import Gate.

Lemma holders_cons p l : holders (p :: l) = (weight p + holders l)%Z.
Proof. by destruct p. Qed.

Lemma holders_insert l i p q :
  l !! i = Some p ->
  holders (<[i := q]> l) = (holders l - weight p + weight q)%Z.
Proof.
  revert i; induction l as [|x l IH]; intros [|i] H; try done.
  - injection H as ->. change (<[0%nat := q]> (p :: l)) with (q :: l).
    rewrite !holders_cons. lia.
  - change (<[S i := q]> (x :: l)) with (x :: <[i := q]> l).
    rewrite !holders_cons, (IH i H). lia.
Qed.

Lemma holders_replicate_idle n : holders (replicate n Idle) = 0%Z.
Proof. induction n; simpl; auto. Qed.

Lemma inv_fresh L n : (0 <= L)%Z -> inv (fresh L n).
Proof.
  intros HL. split; simpl.
  - constructor.
  - by intros h ?%elem_of_nil.
  - by rewrite holders_replicate_idle.
  - done.
Qed.

Lemma attempt_max c s : max (gate (attempt c s)) = max (gate s).
Proof. unfold attempt, enter. by destruct (_ >=? _)%Z. Qed.

Lemma release_max c r s : max (gate (release c r s)) = max (gate s).
Proof. unfold release, leave. by destruct (queue (gate s)). Qed.

Lemma inv_attempt c p s :
  pcs s !! c = Some p -> weight p = 0%Z -> p <> Parked ->
  inv s -> inv (attempt c s).
Proof.
  intros Hc Hw Hp [Hnd Hpk Hact Hb].
  assert (Hnq : c ∉ queue (gate s)).
  { intros Hin. apply Hpk in Hin. congruence. }
  assert (Hlt : (c < length (pcs s))%nat) by (by apply lookup_lt_Some in Hc).
  unfold attempt, enter. destruct (active (gate s) >=? max (gate s))%Z eqn:E.
  - split; simpl.
    + apply NoDup_app. split_and!; [done | | apply NoDup_singleton].
      intros h Hh ->%list_elem_of_singleton. done.
    + intros h [Hh | ->%list_elem_of_singleton]%elem_of_app.
      * rewrite list_lookup_insert_ne; [by apply Hpk|]. by intros ->.
      * by apply list_lookup_insert_eq.
    + rewrite (holders_insert _ _ _ _ Hc), Hw. simpl. lia.
    + done.
  - split; simpl.
    + done.
    + intros h Hh. rewrite list_lookup_insert_ne; [by apply Hpk|]. by intros ->.
    + rewrite (holders_insert _ _ _ _ Hc), Hw. simpl. lia.
    + rewrite Z.geb_leb in E. apply Z.leb_gt in E. lia.
Qed.

Lemma inv_release c r s :
  pcs s !! c = Some Running -> inv s -> inv (release c r s).
Proof.
  intros Hc [Hnd Hpk Hact Hb].
  assert (Hlt : (c < length (pcs s))%nat) by (by apply lookup_lt_Some in Hc).
  unfold release, leave. destruct (queue (gate s)) as [|w q] eqn:Eq.
  - split; simpl.
    + constructor.
    + by intros h ?%elem_of_nil.
    + rewrite (holders_insert _ _ _ _ Hc). simpl. lia.
    + lia.
  - apply NoDup_cons in Hnd as [Hwq Hnd].
    assert (Hw : pcs s !! w = Some Parked) by (apply Hpk; left).
    assert (Hwc : w <> c) by congruence.
    split; simpl.
    + done.
    + intros h Hh. rewrite !list_lookup_insert_ne.
      * apply Hpk. by right.
      * intros ->. assert (pcs s !! h = Some Parked) by (apply Hpk; by right).
        congruence.
      * by intros ->.
    + rewrite (holders_insert _ w Parked).
      * rewrite (holders_insert _ _ _ _ Hc). simpl. lia.
      * by rewrite list_lookup_insert_ne.
    + lia.
Qed.

Lemma gate_inv_step body e s s' : step body e s = Some s' -> inv s -> inv s'.
Proof.
  destruct e as [c|c|c]; simpl;
    destruct (pcs s !! c) as [[]|] eqn:Hc; try done; intros [= <-].
  - by apply (inv_attempt c Idle).
  - by apply (inv_attempt c Woken).
  - by apply inv_release.
Qed.

Lemma step_max body e s s' :
  step body e s = Some s' -> max (gate s') = max (gate s).
Proof.
  destruct e as [c|c|c]; simpl;
    destruct (pcs s !! c) as [[]|]; try done; intros [= <-];
    auto using attempt_max, release_max.
Qed.

Lemma gate_inv_run body evs s s' :
  run body evs s = Some s' -> inv s -> inv s' /\ max (gate s') = max (gate s).
Proof.
  revert s; induction evs as [|e evs IH]; simpl; intros s.
  - by intros [= <-].
  - destruct (step body e s) as [s1|] eqn:E; [|done]. intros Hr Hi.
    destruct (IH s1 Hr (gate_inv_step _ _ _ _ E Hi)) as [? ->].
    split; [done|]. by apply step_max in E.
Qed.

Lemma holders_nonneg l : (0 <= holders l)%Z.
Proof. induction l as [|p l IH]; [done|]. rewrite holders_cons. destruct p; simpl; lia. Qed.

(** C1: on a gate made with a limit [L] of at least 1, whatever calls are
    made and in whatever order the event loop runs their continuations, the
    number of permits out is the number of callers between [active++] and
    their [finally] block and is never above [L]; and whenever such a caller
    runs its [finally] block, whether [fn] returned or threw, [active] falls
    by one and the call is settled with the result of [fn]. *)
Theorem gate_never_exceeds_limit
    (L : Z) (n : nat) (body : nat -> option Exn) (evs : list event) (s : pool) :
  (1 <= L)%Z ->
  run body evs (fresh L n) = Some s ->
  (0 <= active (gate s) <= L)%Z
  /\ active (gate s) = holders (pcs s)
  /\ forall c s', step body (Exit c) s = Some s' ->
       active (gate s') = (active (gate s) - 1)%Z
       /\ pcs s' !! c = Some (Settled (body c)).
Proof.
  intros HL Hrun.
  destruct (gate_inv_run _ _ _ _ Hrun (inv_fresh L n ltac:(lia))) as [Hi Hmax].
  destruct Hi as [Hnd Hpk Hact Hb]. simpl in Hmax.
  split; [|split; [done|]].
  - rewrite Hact at 1. pose proof (holders_nonneg (pcs s)). lia.
  - intros c s'. simpl. destruct (pcs s !! c) as [[]|] eqn:Hc; try done.
    intros [= <-]. assert (Hlt : (c < length (pcs s))%nat)
      by (by apply lookup_lt_Some in Hc).
    unfold release, leave. destruct (queue (gate s)) as [|w q] eqn:Eq; simpl.
    + split; [done|]. by apply list_lookup_insert_eq.
    + split; [done|]. assert (Hw : pcs s !! w = Some Parked) by (apply Hpk; left).
      rewrite list_lookup_insert_ne by congruence.
      by apply list_lookup_insert_eq.
Qed.

Lemma gate_never_exceeds_limit_witness :
  exists s, run sample_body sample_events (fresh 1 3) = Some s
    /\ (0 <= active (gate s) <= 1)%Z
    /\ active (gate s) = holders (pcs s)
    /\ forall c s', step sample_body (Exit c) s = Some s' ->
         active (gate s') = (active (gate s) - 1)%Z
         /\ pcs s' !! c = Some (Settled (sample_body c)).
Proof.
  eexists. split; [vm_compute; reflexivity|].
  apply (gate_never_exceeds_limit 1 3 sample_body sample_events);
    [lia | vm_compute; reflexivity].
Defined.

(** *** The calls made in index order *)

Lemma spawned_prefix L n k :
  (k <= n)%nat -> spawned L n k (foldl (fun s c => attempt c s) (fresh L n) (seq 0 k)).
Proof.
  induction k as [|k IH]; intros Hk.
  - split; simpl; try done.
    + apply length_replicate.
    + intros c p [-> _]%lookup_replicate. right; right. split; [done|lia].
    + intros c Hc. apply lookup_replicate_2. lia.
    + intros c Hc. lia.
  - rewrite seq_S, foldl_app. simpl.
    destruct (IH ltac:(lia)) as [Hlen Hkind Hidle Hrun Hact Hmax].
    set (s := foldl (fun s c => attempt c s) (fresh L n) (seq 0 k)) in *.
    unfold attempt, enter. rewrite Hmax.
    destruct (active (gate s) >=? L)%Z eqn:E; split; simpl;
      rewrite ?length_insert; try done.
    + intros c p [(-> & <- & _)|(Hne & Hc)]%list_lookup_insert_Some; [tauto|].
      destruct (Hkind c p Hc) as [?|[?|[? ?]]]; [tauto | tauto |].
      right; right. split; [done|lia].
    + intros c Hc. rewrite list_lookup_insert_ne by lia. apply Hidle. lia.
    + intros c Hc HcL. destruct (decide (c = k)) as [->|Hne].
      * rewrite Z.geb_leb in E. apply Z.leb_le in E.
        rewrite Hact in E by lia. lia.
      * rewrite list_lookup_insert_ne by done. apply Hrun; [lia|done].
    + intros HL. rewrite Z.geb_leb in E. apply Z.leb_le in E.
      rewrite Hact in E by lia. lia.
    + intros c p [(-> & <- & _)|(Hne & Hc)]%list_lookup_insert_Some; [tauto|].
      destruct (Hkind c p Hc) as [?|[?|[? ?]]]; [tauto | tauto |].
      right; right. split; [done|lia].
    + intros c Hc. rewrite list_lookup_insert_ne by lia. apply Hidle. lia.
    + intros c Hc HcL. destruct (decide (c = k)) as [->|Hne].
      * apply list_lookup_insert_eq. lia.
      * rewrite list_lookup_insert_ne by done. apply Hrun; [lia|done].
    + intros HL. rewrite Z.geb_leb in E. apply Z.leb_gt in E.
      destruct (decide (Z.of_nat k <= L)%Z) as [Hle|Hgt]; [|lia].
      rewrite Hact by done. lia.
Qed.

Lemma spawn_length L n : length (pcs (spawn L n)) = n.
Proof. by destruct (spawned_prefix L n n). Qed.

Lemma spawn_kind L n c p :
  pcs (spawn L n) !! c = Some p -> p = Running \/ p = Parked.
Proof.
  intros H. destruct (spawned_prefix L n n ltac:(done)) as [Hlen Hkind _ _ _ _].
  destruct (Hkind c p H) as [?|[?|[_ Hc]]]; [tauto | tauto |].
  apply lookup_lt_Some in H. rewrite spawn_length in H. lia.
Qed.

Lemma spawn_running L n c :
  (c < n)%nat -> (Z.of_nat c < L)%Z -> pcs (spawn L n) !! c = Some Running.
Proof. intros. by apply (spawned_prefix L n n). Qed.

Lemma step_length body e s s' :
  step body e s = Some s' -> length (pcs s') = length (pcs s).
Proof.
  destruct e as [c|c|c]; simpl;
    destruct (pcs s !! c) as [[]|]; try done; intros [= <-];
    unfold attempt, release, enter, leave;
    repeat case_match; simplify_eq; simpl; rewrite ?length_insert; done.
Qed.

(** A call is found settled only after its own [finally] block. *)
Lemma step_settled body e s s' j r :
  step body e s = Some s' ->
  pcs s' !! j = Some (Settled r) ->
  pcs s !! j = Some (Settled r) \/ (e = Exit j /\ r = body j).
Proof.
  destruct e as [c|c|c]; simpl;
    destruct (pcs s !! c) as [[]|] eqn:Hc; try done; intros [= <-];
    unfold attempt, release, enter, leave;
    repeat case_match; simplify_eq; simpl;
    intros H; repeat (apply list_lookup_insert_Some in H
                        as [(? & ? & ?)|(? & H)]; simplify_eq); auto.
Qed.

Lemma step_running body c s s' :
  step body (Exit c) s = Some s' -> pcs s !! c = Some Running.
Proof. simpl. destruct (pcs s !! c) as [[]|]; done. Qed.

(** The first rejection is the exception of some call. *)
Lemma step_rejected body e s s' x :
  step body e s = Some s' -> rejected s' = Some x ->
  rejected s = Some x \/ exists c, (c < length (pcs s))%nat /\ body c = Some x.
Proof.
  destruct e as [c|c|c]; simpl;
    destruct (pcs s !! c) as [[]|] eqn:Hc; try done; intros [= <-].
  - unfold attempt. destruct (enter c (gate s)). auto.
  - unfold attempt. destruct (enter c (gate s)). auto.
  - unfold release. destruct (leave (gate s)). simpl.
    destruct (rejected s); simpl; [auto|]. intros H. right. exists c.
    split; [by apply lookup_lt_Some in Hc | done].
Qed.

Lemma run_rejected body evs s s' x :
  run body evs s = Some s' -> rejected s' = Some x ->
  rejected s = Some x \/ exists c, (c < length (pcs s))%nat /\ body c = Some x.
Proof.
  revert s; induction evs as [|e evs IH]; simpl; intros s.
  - intros [= <-]. auto.
  - destruct (step body e s) as [s1|] eqn:E; [|done]. intros Hr Hx.
    destruct (IH s1 Hr Hx) as [H|(c & Hc & H)].
    + by apply (step_rejected _ _ _ _ _ E).
    + right. exists c. by rewrite <- (step_length _ _ _ _ E).
Qed.

Lemma spawn_rejected L n : rejected (spawn L n) = None.
Proof.
  unfold spawn. generalize (seq 0 n).
  assert (H : rejected (fresh L n) = None) by done. revert H.
  generalize (fresh L n). intros s H l. revert s H.
  induction l as [|c l IH]; intros s H; [done|]. simpl. apply IH.
  unfold attempt. by destruct (enter c (gate s)).
Qed.

End GateFacts.

(* ===================================================================== *)
(** ** The pipelined phase                                                *)
(* ===================================================================== *)

Module PipelineFacts.
Import Pipeline.

Section Invariant.
Variable v : env.
Variable N : nat.

Lemma inv_init : inv v N (init v N).
Proof.
  split; simpl; rewrite ?GateFacts.spawn_length, ?length_replicate; try done.
  - intros i [? _]%lookup_replicate. done.
  - intros i [[? _]%lookup_replicate|[? _]%lookup_replicate]; done.
  - intros i ?%elem_of_nil. done.
  - intros i t [? _]%lookup_replicate. done.
  - intros i r H. apply GateFacts.spawn_kind in H as [?|?]; done.
  - intros i r H. apply GateFacts.spawn_kind in H as [?|?]; done.
Qed.

Ltac insert_cases H :=
  apply list_lookup_insert_Some in H as [(? & ? & ?)|(? & H)]; simplify_eq.

Lemma pipeline_inv_step e s s' :
step v e s = Some s' -> inv v N s -> inv v N s'.
Proof.
  intros Hstep [L1 L2 L3 L4 L5 L6 Hsig Hst Hrq Hres Hse Hso Hf].
  destruct e as [i|i|i|i|i|i|i]; cbn [Pipeline.step] in Hstep.
  - (* EResume *)
    destruct (Gate.step _ _ _) as [p|] eqn:Hg; [|done].
    cbn in Hstep; injection Hstep as <-.
    split; simpl; try done.
    + by rewrite (GateFacts.step_length _ _ _ _ Hg).
    + intros j r H. apply (GateFacts.step_settled _ _ _ _ _ _ Hg) in H
        as [H|[? _]]; [by apply Hse | done].
  - (* EFinish *)
    destruct (Gate.pcs (enhancing s) !! i) as [[]|] eqn:Hp; try done.
    destruct (e_finished s !! i) as [[]|] eqn:Hfin; try done.
    simplify_eq/=. split; simpl; rewrite ?length_insert; try done.
    + destruct (enhance_answer v i); rewrite ?length_insert; done.
    + intros j Hj. destruct (enhance_answer v i) eqn:Ea.
      * destruct (Hsig j Hj) as [H1 H2]. split; [|done].
        destruct (decide (i = j)) as [->|Hne]; [congruence|].
        by rewrite list_lookup_insert_ne.
      * destruct (decide (i = j)) as [->|Hne].
        -- split; [|done]. apply list_lookup_insert_eq.
           by apply lookup_lt_Some in Hfin.
        -- rewrite list_lookup_insert_ne in Hj by done.
           destruct (Hsig j Hj) as [H1 H2]. split; [|done].
           by rewrite list_lookup_insert_ne.
    + intros j Hj. specialize (Hst j Hj).
      destruct (enhance_answer v i); [done|].
      destruct (decide (i = j)) as [->|Hne].
      * apply list_lookup_insert_eq. by apply lookup_lt_Some in Hst.
      * by rewrite list_lookup_insert_ne.
    + intros j Hj. destruct (Hrq j Hj) as [H1 H2]. split; [done|].
      destruct (enhance_answer v i); [done|].
      destruct (decide (i = j)) as [->|Hne].
      * apply list_lookup_insert_eq. by apply lookup_lt_Some in H2.
      * by rewrite list_lookup_insert_ne.
    + intros j r Hj. destruct (Hse j r Hj) as [H1 H2]. split; [|done].
      destruct (decide (i = j)) as [->|Hne]; [congruence|].
      by rewrite list_lookup_insert_ne.
  - (* ERelease *)
    destruct (e_finished s !! i) as [[]|] eqn:Hfin; try done.
    destruct (Gate.step _ _ _) as [p|] eqn:Hg; [|done].
    cbn in Hstep; injection Hstep as <-.
    split; simpl; try done.
    + by rewrite (GateFacts.step_length _ _ _ _ Hg).
    + intros j r H. apply (GateFacts.step_settled _ _ _ _ _ _ Hg) in H
        as [H|[[= <-] ->]]; [by apply Hse | done].
    + intros e He. destruct (failure s) as [e0|] eqn:Ef; simpl in He.
      * apply Hf. congruence.
      * exists i. split; [|by left].
        apply lookup_lt_Some in Hfin. lia.
  - (* OResume *)
    destruct (Gate.step _ _ _) as [p|] eqn:Hg; [|done].
    cbn in Hstep; injection Hstep as <-.
    split; simpl; try done.
    + by rewrite (GateFacts.step_length _ _ _ _ Hg).
    + intros j r H. apply (GateFacts.step_settled _ _ _ _ _ _ Hg) in H
        as [H|[? _]]; [by apply Hso | done].
  - (* OProceed *)
    destruct (Gate.pcs (recognizing s) !! i) as [[]|] eqn:Hp; try done.
    destruct (o_stage s !! i) as [[]|] eqn:Hs; try done.
    destruct (enhanced s !! i) as [[]|] eqn:He; try done.
    simplify_eq/=. split; simpl; rewrite ?length_insert; try done.
    + intros j [Hj|Hj]; insert_cases Hj; auto.
    + intros j Hj. destruct (documentAiClient v) eqn:Ec; [|by apply Hrq].
      apply elem_of_cons in Hj as [->|Hj]; [done|]. by apply Hrq.
    + intros j t Hj. insert_cases Hj. by apply Hres.
    + intros j r Hj. destruct (Hso j r Hj) as [H1 H2]. split; [|done].
      destruct (decide (i = j)) as [->|Hne]; [congruence|].
      by rewrite list_lookup_insert_ne.
  - (* OFinish *)
    destruct (o_stage s !! i) as [[]|] eqn:Hs; try done.
    simplify_eq/=. split; simpl; rewrite ?length_insert; try done.
    + destruct (recognition v i); rewrite ?length_insert; done.
    + intros j [Hj|Hj]; insert_cases Hj; auto.
    + intros j t Hj Hr. destruct (decide (i = j)) as [->|Hne].
      * rewrite Hr. apply list_lookup_insert_eq.
        apply lookup_lt_Some in Hs. lia.
      * rewrite list_lookup_insert_ne in Hj by done.
        destruct (recognition v i);
          rewrite ?list_lookup_insert_ne by done; by apply Hres.
    + intros j r Hj. destruct (Hso j r Hj) as [H1 H2]. split; [|done].
      destruct (decide (i = j)) as [->|Hne]; [congruence|].
      by rewrite list_lookup_insert_ne.
  - (* ORelease *)
    destruct (o_stage s !! i) as [[]|] eqn:Hs; try done.
    destruct (Gate.step _ _ _) as [p|] eqn:Hg; [|done].
    cbn in Hstep; injection Hstep as <-.
    split; simpl; try done.
    + by rewrite (GateFacts.step_length _ _ _ _ Hg).
    + intros j r H. apply (GateFacts.step_settled _ _ _ _ _ _ Hg) in H
        as [H|[[= <-] ->]]; [by apply Hso | done].
    + intros e He. destruct (failure s) as [e0|] eqn:Ef; simpl in He.
      * apply Hf. congruence.
      * exists i. split; [|by right].
        apply lookup_lt_Some in Hs. lia.
Qed.

Lemma pipeline_inv_run evs s s' :
run v evs s = Some s' -> inv v N s -> inv v N s'.
Proof.
  revert s; induction evs as [|e evs IH]; simpl; intros s.
  - by intros [= <-].
  - destruct (step v e s) as [s1|] eqn:E; [|done]. intros Hr Hi.
    apply (IH s1 Hr). by apply (pipeline_inv_step e s).
Qed.

Lemma inv_reachable evs s : run v evs (init v N) = Some s -> inv v N s.
Proof. intros H. apply (pipeline_inv_run _ _ _ H), inv_init. Qed.
End Invariant.

Lemma all_settled_ok_lookup l i p :
  Gate.all_settled_ok l = true -> l !! i = Some p -> p = Gate.Settled None.
Proof.
  revert i; induction l as [|x l IH]; intros [|i]; simpl; try done.
  - intros H [= <-]. by destruct x as [| | | |[|]].
  - intros H. apply andb_true_iff in H as [_ H]. by apply IH.
Qed.

(** When [Promise.all] fulfils, [pageResults] holds the text of every page
    at the index of the page, whatever the order of the continuations. *)
Lemma completed_results v N evs s :
  run v evs (init v N) = Some s -> completed s = true ->
  pageResults s = Some <$> recognized_texts v N.
Proof.
  intros Hrun Hc. destruct (inv_reachable v N evs s Hrun)
    as [L1 L2 L3 L4 L5 L6 Hsig Hst Hrq Hres Hse Hso Hf].
  apply andb_true_iff in Hc as [_ Hc]. unfold recognized_texts.
  apply list_eq. intros i. rewrite !list_lookup_fmap.
  destruct (decide (i < N)%nat) as [Hi|Hi].
  - rewrite lookup_seq_lt by done. simpl.
    destruct (lookup_lt_is_Some_2 (Gate.pcs (recognizing s)) i) as [p Hp];
      [lia|].
    pose proof (all_settled_ok_lookup _ _ _ Hc Hp) as ->.
    destruct (Hso i None Hp) as [Hfin Hout]. unfold ocr_outcome in Hout.
    destruct (recognition v i) as [e|t] eqn:Er; [done|].
    by apply Hres.
  - rewrite lookup_seq_ge by lia. simpl. apply lookup_ge_None. lia.
Qed.

(** C2: in every state the pipelined phase can reach, a page that is being
    recognised, was recognised, or for which a request went to the service,
    has its promise resolved, and it was resolved by the enhancement of that
    same page after it succeeded; the continuation that starts recognition
    of page [i] can run only then.  Other pages need not be enhanced for
    that: when both limits attempt the page at once, recognition of page [i]
    can start while no other page is enhanced. *)
Theorem recognition_waits_for_enhancement (v : env) (N : nat) :
  (forall evs s, run v evs (init v N) = Some s ->
     (forall i,
        o_stage s !! i = Some Recognizing \/ o_stage s !! i = Some Finished
        \/ i ∈ requests s ->
        enhanced s !! i = Some true /\ e_finished s !! i = Some true
        /\ enhance_answer v i = None)
     /\ (forall i s', step v (OProceed i) s = Some s' ->
           enhanced s !! i = Some true /\ e_finished s !! i = Some true))
  /\ (forall i, (i < N)%nat ->
        (Z.of_nat i < CONCURRENCY_IMAGE_ENHANCEMENT v)%Z ->
        (Z.of_nat i < CONCURRENCY_GOOGLE_OCR v)%Z ->
        enhance_answer v i = None ->
        exists s', run v [EFinish i; OProceed i] (init v N) = Some s'
          /\ o_stage s' !! i = Some Recognizing
          /\ forall j, j <> i -> (j < N)%nat -> e_finished s' !! j = Some false).
Proof.
  split.
  - intros evs s Hrun. destruct (inv_reachable v N evs s Hrun)
      as [L1 L2 L3 L4 L5 L6 Hsig Hst Hrq Hres Hse Hso Hf].
    split.
    + intros i Hi. assert (He : enhanced s !! i = Some true).
      { destruct Hi as [Hi|[Hi|Hi]]; [apply Hst; by left | apply Hst; by right |].
        by apply Hrq. }
      destruct (Hsig i He). done.
    + intros i s'. cbn [step].
      destruct (Gate.pcs (recognizing s) !! i) as [[]|]; try done.
      destruct (o_stage s !! i) as [[]|]; try done.
      destruct (enhanced s !! i) as [[]|] eqn:He; try done.
      intros _. destruct (Hsig i He). done.
  - intros i Hi He Ho Hans. eexists. split; [|split].
    + cbn [run step init enhancing recognizing e_finished o_stage enhanced].
      rewrite (GateFacts.spawn_running _ _ _ Hi He).
      rewrite (lookup_replicate_2 _ _ _ Hi), Hans.
      cbn [run step init enhancing recognizing e_finished o_stage enhanced].
      rewrite (GateFacts.spawn_running _ _ _ Hi Ho).
      rewrite (lookup_replicate_2 _ _ _ Hi).
      rewrite list_lookup_insert_eq by (by rewrite length_replicate).
      reflexivity.
    + simpl. apply list_lookup_insert_eq. by rewrite length_replicate.
    + intros j Hne Hj. simpl. rewrite list_lookup_insert_ne by done.
      by apply lookup_replicate_2.
Qed.

Lemma recognition_waits_for_enhancement_witness :
  exists s,
    run two_pages [EFinish 1; EFinish 0; OProceed 0]%nat (init two_pages 2) = Some s
    /\ (enhanced s !! 0%nat = Some true /\ e_finished s !! 0%nat = Some true
        /\ enhance_answer two_pages 0 = None)
    /\ exists s',
         run two_pages [EFinish 0; OProceed 0]%nat (init two_pages 2) = Some s'
         /\ o_stage s' !! 0%nat = Some Recognizing
         /\ forall j, j <> 0%nat -> (j < 2)%nat -> e_finished s' !! j = Some false.
Proof.
  eexists. split; [vm_compute; reflexivity|].
  destruct (recognition_waits_for_enhancement two_pages 2) as [H1 H2]. split.
  - apply (H1 [EFinish 1; EFinish 0; OProceed 0]%nat); [vm_compute; reflexivity|].
    left. vm_compute. reflexivity.
  - apply (H2 0%nat); [lia | simpl; lia | simpl; lia | reflexivity].
Defined.

End PipelineFacts.

(* ===================================================================== *)
(** ** The coordinator                                                    *)
(* ===================================================================== *)

Module CoordinatorFacts.
Import Coordinator.

Lemma bind_Return {A B} (m : M A) (k : A -> M B) w b w' :
  bind m k w = (Return b, w') ->
  exists a w1, m w = (Return a, w1) /\ k a w1 = (Return b, w').
Proof.
  unfold bind. destruct (m w) as [[a|e|] w1]; [|done|done].
  intros H. by exists a, w1.
Qed.

Lemma bind_Throw {A B} (m : M A) (k : A -> M B) w e w' :
  bind m k w = (Throw e, w') ->
  m w = (Throw e, w')
  \/ exists a w1, m w = (Return a, w1) /\ k a w1 = (Throw e, w').
Proof.
  unfold bind. destruct (m w) as [[a|e0|] w1];
    [|intros [= -> ->]; by left|done].
  intros H. right. by exists a, w1.
Qed.

Lemma mrm_absent v w : workspace_absent v (mrm (session_dir v) w).2.
Proof. intros q Hq. simpl in Hq. by apply elem_of_filter in Hq as [? _]. Qed.

Lemma mrm_last p w : last (trace (mrm p w).2) = Some (Rm p).
Proof. simpl. apply last_snoc. Qed.

(** The [try] block returns only through [mrm(session)]. *)
Lemma pipeline_body_Return v b w r w' :
  pipeline_body v b w = (Return r, w') ->
  exists results w1,
    w' = (mrm (session_dir v) w1).2
    /\ r = {| success := true;
              text := trim (assemble b results);
              pages := List.length results;
              length := List.length (trim (assemble b results)) |}.
Proof.
  unfold pipeline_body. intros H.
  do 3 (apply bind_Return in H as (? & ? & _ & H)).
  apply bind_Return in H as (images & ? & _ & H).
  apply bind_Return in H as (results & w1 & _ & H).
  apply bind_Return in H as (? & ? & Hm & H).
  unfold ret in H. injection H as <- <-.
  unfold mrm in Hm. injection Hm as <-. by exists results, w1.
Qed.

Lemma convert_Return v pdf dir w images w' :
  _convertPdfToPngImages v pdf dir w = (Return images, w') ->
  exists n, images = page_png dir <$> seq 1 n.
Proof.
  unfold _convertPdfToPngImages. intros H.
  apply bind_Return in H as (? & ? & _ & H).
  apply bind_Return in H as (pageCount & ? & _ & H).
  do 3 (apply bind_Return in H as (? & ? & _ & H)).
  unfold ret in H. injection H as <- <-. by eexists.
Qed.

Lemma pipelining_Return v dir n w results w' :
  pipelining v dir n w = (Return results, w') ->
  exists s,
    Pipeline.run (stages v) (pipeline_schedule v) (Pipeline.init (stages v) n)
    = Some s
    /\ Pipeline.completed s = true
    /\ results = Pipeline.pageResults s.
Proof.
  unfold pipelining.
  destruct (Pipeline.run _ _ _) as [s|] eqn:Hrun; [|done].
  destruct (Pipeline.failure s); [done|].
  destruct (Pipeline.completed s) eqn:Hc; [|done].
  intros [= <- <-]. by exists s.
Qed.

(** A run that returns went through a pipelined phase that fulfilled, over
    as many pages as the result counts. *)
Lemma run_Return v b w r w' :
  _runOcrProcessingPipeline v b w = (Return r, w') ->
  exists s,
    Pipeline.run (stages v) (pipeline_schedule v)
      (Pipeline.init (stages v) (pages r)) = Some s
    /\ Pipeline.completed s = true
    /\ text r = trim (assemble b (Pipeline.pageResults s))
    /\ length r = List.length (text r).
Proof.
  unfold _runOcrProcessingPipeline, try_catch.
  destruct (pipeline_body v b w) as [[r0|e|] w1] eqn:Hb; [|done|done].
  intros [= -> ->]. unfold pipeline_body in Hb.
  do 3 (apply bind_Return in Hb as (? & ? & _ & Hb)).
  apply bind_Return in Hb as (images & ? & Hi & Hb).
  apply bind_Return in Hb as (results & ? & Hp & Hb).
  apply bind_Return in Hb as (? & ? & _ & Hb).
  unfold ret in Hb. injection Hb as <- <-.
  apply convert_Return in Hi as [n ->].
  apply pipelining_Return in Hp as (s & Hrun & Hc & ->).
  rewrite length_fmap, length_seq in Hrun. simpl.
  rewrite (Pipeline.len_results _ _ _ (PipelineFacts.inv_reachable _ _ _ _ Hrun)).
  by exists s.
Qed.


Lemma getPdfPageCount_Return v pdf w n w' :
  _getPdfPageCount v pdf w = (Return n, w') ->
  exists o, show_count v = ExecOk o
    /\ parseInt (trim (or_empty o)) = Some n /\ (1 <= n)%Z.
Proof.
  unfold _getPdfPageCount, bind, execp.
  destruct (show_count v) as [|o]; [done|].
  destruct (parseInt (trim (or_empty o))) as [z|] eqn:Ep; simpl; [|done].
  destruct (z =? 0)%Z eqn:E0; [done|]. destruct (z <? 1)%Z eqn:E1; [done|].
  simpl. intros [= <- <-]. exists o. split; [done|]. split; [done|].
  apply Z.ltb_ge in E1. done.
Qed.

(** A run that returns counted at least one page. *)
Lemma run_pages v b w r w' :
  _runOcrProcessingPipeline v b w = (Return r, w') ->
  exists o n, show_count v = ExecOk o
    /\ parseInt (trim (or_empty o)) = Some n /\ (1 <= n)%Z
    /\ pages r = Z.to_nat n.
Proof.
  unfold _runOcrProcessingPipeline, try_catch.
  destruct (pipeline_body v b w) as [[r0|e|] w1] eqn:Hb; [|done|done].
  intros [= -> ->]. unfold pipeline_body in Hb.
  do 3 (apply bind_Return in Hb as (? & ? & _ & Hb)).
  apply bind_Return in Hb as (images & ? & Hi & Hb).
  apply bind_Return in Hb as (results & ? & Hp & Hb).
  apply bind_Return in Hb as (? & ? & _ & Hb).
  unfold ret in Hb. injection Hb as <- <-. simpl.
  apply pipelining_Return in Hp as (s & Hrun & Hc & ->).
  rewrite (Pipeline.len_results _ _ _ (PipelineFacts.inv_reachable _ _ _ _ Hrun)).
  unfold _convertPdfToPngImages in Hi.
  apply bind_Return in Hi as (? & ? & _ & Hi).
  apply bind_Return in Hi as (n & ? & Hn & Hi).
  do 3 (apply bind_Return in Hi as (? & ? & _ & Hi)).
  unfold ret in Hi. injection Hi as <- <-.
  apply getPdfPageCount_Return in Hn as (o & Ho & Hparse & Hle).
  exists o, n. by rewrite length_fmap, length_seq.
Qed.

(** The text of a run that returns: the segments of the pages in the
    order of the pages, trimmed. *)
Lemma run_text v b w r w' :
  _runOcrProcessingPipeline v b w = (Return r, w') ->
  text r
  = trim (concat (imap (page_segment b)
                    (Pipeline.recognized_texts (stages v) (pages r)))).
Proof.
  intros H. apply run_Return in H as (s & Hrun & Hc & -> & _).
  rewrite (PipelineFacts.completed_results _ _ _ _ Hrun Hc).
  rewrite TextFacts.assemble_spec, imap_fmap. done.
Qed.



Ltac close_abort :=
  eexists _, _; split; [reflexivity|]; split; [apply mrm_absent|];
  split; [|try done];
  simpl; rewrite <- ?app_assoc; eexists; split; [reflexivity|];
  repeat constructor.



(** ** Runs that cannot throw *)

Lemma stat_all_Return v fs w :
  (forall c, fs_fault v c = None) ->
  exists w', stat_all v fs w = (Return tt, w').
Proof.
  intros Hfs. revert w; induction fs as [|f fs IH]; intros w; simpl.
  - by eexists.
  - unfold bind, probe. rewrite Hfs. apply IH.
Qed.

Lemma rasterize_no_throw v dir n w e w' :
  (forall i, draw_outcome v i = None) -> rasterize v dir n w <> (Throw e, w').
Proof.
  intros Hd. unfold rasterize.
  destruct (Gate.run _ _ _) as [p|] eqn:Hrun; [|done].
  destruct (Gate.rejected p) as [x|] eqn:Hx; [|by destruct (Gate.all_settled_ok _)].
  destruct (GateFacts.run_rejected _ _ _ _ _ Hrun Hx) as [H|(c & _ & H)].
  - by rewrite GateFacts.spawn_rejected in H.
  - by rewrite Hd in H.
Qed.

Lemma pipelining_no_throw v dir n w e w' :
  (forall i, (i < n)%nat ->
     Pipeline.enhance_answer (stages v) i = None
     /\ Pipeline.ocr_outcome (stages v) i = None) ->
  pipelining v dir n w <> (Throw e, w').
Proof.
  intros Hok. unfold pipelining.
  destruct (Pipeline.run _ _ _) as [s|] eqn:Hrun; [|done].
  destruct (Pipeline.failure s) as [x|] eqn:Hx; [|by destruct (Pipeline.completed s)].
  destruct (Pipeline.failure_sound _ _ _
              (PipelineFacts.inv_reachable _ _ _ _ Hrun) x Hx)
    as (i & Hi & [H|H]); destruct (Hok i Hi); congruence.
Qed.

(** When no operation on the file system fails, the page count is valid, no
    conversion fails, and no enhancement and no recognition of a page of the
    document fails, the run does not throw, in whatever order the event loop
    runs the continuations. *)
Lemma run_no_throw v b w o n :
  (forall c, fs_fault v c = None) ->
  show_count v = ExecOk o ->
  parseInt (trim (or_empty o)) = Some n -> (1 <= n)%Z ->
  (forall i, draw_outcome v i = None) ->
  (forall i, (i < Z.to_nat n)%nat ->
     Pipeline.enhance_answer (stages v) i = None
     /\ Pipeline.ocr_outcome (stages v) i = None) ->
  forall e w', _runOcrProcessingPipeline v b w <> (Throw e, w').
Proof.
  intros Hfs Hshow Hparse Hn Hdraw Hok e w'.
  unfold _runOcrProcessingPipeline, try_catch.
  destruct (pipeline_body v b w) as [[r0|e0|] w0] eqn:Hb; [done| |done].
  exfalso. unfold pipeline_body in Hb.
  unfold bind at 1 in Hb. unfold mmkdir at 1 in Hb. rewrite Hfs in Hb.
  unfold bind at 1 in Hb. unfold mmkdir at 1 in Hb. rewrite Hfs in Hb.
  unfold bind at 1 in Hb. unfold mwrite at 1 in Hb. rewrite Hfs in Hb.
  apply bind_Throw in Hb as [Hb|(images & w1 & Hi & Hb)].
  - unfold _convertPdfToPngImages in Hb.
    unfold bind at 1 in Hb. unfold mmkdir at 1 in Hb. rewrite Hfs in Hb.
    unfold bind at 1 in Hb. unfold _getPdfPageCount in Hb.
    unfold bind at 1 in Hb. unfold execp in Hb. rewrite Hshow, Hparse in Hb.
    simpl in Hb.
    replace (n =? 0)%Z with false in Hb by (symmetry; apply Z.eqb_neq; lia).
    replace (n <? 1)%Z with false in Hb by (symmetry; apply Z.ltb_ge; lia).
    simpl in Hb. unfold ret at 1 in Hb.
    apply bind_Throw in Hb as [Hb|(? & ? & _ & Hb)];
      [by apply rasterize_no_throw in Hb|].
    unfold bind at 1 in Hb. unfold probe at 1 in Hb. rewrite Hfs in Hb.
    unfold bind in Hb.
    match type of Hb with
    | context [stat_all v ?fs ?w] =>
        destruct (stat_all_Return v fs w Hfs) as [w2 Hs]; rewrite Hs in Hb
    end.
    done.
  - assert (Hlen : List.length images = Z.to_nat n).
    { apply convert_Return in Hi as Himg.
      unfold _convertPdfToPngImages in Hi.
      apply bind_Return in Hi as (? & ? & _ & Hi).
      apply bind_Return in Hi as (m & ? & Hc & Hi).
      do 3 (apply bind_Return in Hi as (? & ? & _ & Hi)).
      unfold ret in Hi. injection Hi as <- <-.
      apply getPdfPageCount_Return in Hc as (o' & Ho' & Hp' & _).
      rewrite length_fmap, length_seq. congruence. }
    apply bind_Throw in Hb as [Hb|(results & w2 & _ & Hb)].
    + apply pipelining_no_throw in Hb; [done|]. by rewrite Hlen.
    + unfold bind, mrm, ret in Hb. done.
Qed.

(** C7: without page markers, when the normalised texts of three pages are
    ["A"], the empty string and ["C"], the assembly loop yields
    ["A\n\n\n\nC"] before the final trim, and so does a run that returns;
    the recognition of the empty page ends without an exception and its
    slot holds the empty string; and a run in which no stage fails does not
    throw. *)
Theorem empty_page_is_kept
    (v : env) (w : world) (d0 d1 d2 : option jsstring) :
  Pipeline.recognition (stages v) 0 = inr d0 ->
  Pipeline.recognition (stages v) 1 = inr d1 ->
  Pipeline.recognition (stages v) 2 = inr d2 ->
  Pipeline.page_text d0 = lit "A" ->
  Pipeline.page_text d1 = [] ->
  Pipeline.page_text d2 = lit "C" ->
  Pipeline.ocr_outcome (stages v) 1 = None
  /\ Pipeline.recognized_texts (stages v) 3 = [lit "A"; []; lit "C"]
  /\ assemble false [Some (lit "A"); Some []; Some (lit "C")]
     = lit "A" ++ [LF; LF; LF; LF] ++ lit "C"
  /\ (forall r w', _runOcrProcessingPipeline v false w = (Return r, w') ->
        pages r = 3%nat ->
        text r = lit "A" ++ [LF; LF; LF; LF] ++ lit "C")
  /\ ((forall c, fs_fault v c = None) ->
      (exists o, show_count v = ExecOk o
                 /\ parseInt (trim (or_empty o)) = Some 3%Z) ->
      (forall i, draw_outcome v i = None) ->
      (forall i, (i < 3)%nat -> Pipeline.enhance_answer (stages v) i = None) ->
      forall e w', _runOcrProcessingPipeline v false w <> (Throw e, w')).
Proof.
  intros H0 H1 H2 T0 T1 T2.
  assert (Ht : Pipeline.recognized_texts (stages v) 3 = [lit "A"; []; lit "C"]).
  { unfold Pipeline.recognized_texts. simpl. by rewrite H0, H1, H2, T0, T1, T2. }
  split; [unfold Pipeline.ocr_outcome; by rewrite H1|].
  split; [exact Ht|]. split; [by vm_compute|]. split.
  - intros r w' Hrun Hp. rewrite (run_text _ _ _ _ _ Hrun), Hp, Ht.
    by vm_compute.
  - intros Hfs (o & Hshow & Hparse) Hdraw Henh.
    apply (run_no_throw v false w o 3%Z); try done.
    intros i Hi. split; [by apply Henh|]. unfold Pipeline.ocr_outcome.
    assert (Hcase : (i = 0 \/ i = 1 \/ i = 2)%nat) by lia.
    destruct Hcase as [Hi0|[Hi1|Hi2]]; subst i; by rewrite ?H0, ?H1, ?H2.
Qed.

Lemma empty_page_is_kept_witness :
  (exists r w', _runOcrProcessingPipeline a_blank_c false empty_world
                = (Return r, w')
     /\ pages r = 3%nat
     /\ text r = lit "A" ++ [LF; LF; LF; LF] ++ lit "C")
  /\ Pipeline.ocr_outcome (stages a_blank_c) 1 = None
  /\ forall e w', _runOcrProcessingPipeline a_blank_c false empty_world
                  <> (Throw e, w').
Proof.
  destruct (empty_page_is_kept a_blank_c empty_world (Some (lit "A")) None
              (Some (lit "C")))
    as (Hout & _ & _ & Htext & Hno); try (vm_compute; reflexivity).
  split; [|split; [exact Hout|]].
  - eexists _, _. split; [vm_compute; reflexivity|]. split; [reflexivity|].
    eapply Htext; [vm_compute; reflexivity | reflexivity].
  - apply Hno; try done.
    exists (Some (lit "3" ++ [LF])). split; [reflexivity | by vm_compute].
Defined.


(** ** Sample runs *)





End CoordinatorFacts.
